(** * Hyperliquid Big Trader Monitor: the polling and aggregation core

    A shallow embedding of [app.py]: the numeric normaliser [_safe_float],
    the two cached fetchers, the fills loop and the positions loop with
    their per-address [try]/[except], the row builders and the two sorted
    tables, followed by the properties of the specification.

    Python values coming from the JSON API are the type [pyval]; Python
    floats are IEEE-754 binary64 numbers ([spec_float] at precision 53);
    exceptions are the [Raise] results of the [result] monad; the Streamlit
    page, the cache and the upstream service form the [world] that the
    script threads through. The styling, the headings, the metric cards and
    the sidebar widgets are presentation and are left out; the sidebar
    enters as the record [inputs]. *)

From Stdlib Require Import ZArith List Bool Ascii String Lia.
From Stdlib Require Import SpecFloat.
From Stdlib Require Import Sorted Permutation.
From stdpp Require Import gmap strings sorting pretty.

Import ListNotations.
Local Open Scope string_scope.
Local Open Scope list_scope.
Local Open Scope Z_scope.

(* ===================================================================== *)
(** * Python floats                                                       *)
(* ===================================================================== *)

Module Float.

Definition prec : Z := 53.
Definition emax : Z := 1024.

Definition nan : spec_float := S754_nan.

Definition is_nan (f : spec_float) : bool :=
  match f with S754_nan => true | _ => false end.

Definition is_zero (f : spec_float) : bool :=
  match f with S754_zero _ => true | _ => false end.

(** [x == y], [x * y] and [x / y] on floats. *)
Definition eqb (x y : spec_float) : bool := SFeqb x y.
Definition mul (x y : spec_float) : spec_float := SFmul prec emax x y.
Definition div (x y : spec_float) : spec_float := SFdiv prec emax x y.

(** The nearest float of an integer (ties to even); an integer beyond the
    largest float rounds to an infinity here, which [float(int)] reports
    as [OverflowError]. *)
Definition of_Z (z : Z) : spec_float := binary_normalize prec emax z 0 false.

(** The nearest float of [m * 10^e10], signed by [neg]: what CPython's
    correctly rounded string conversion yields for a decimal literal. *)
Definition of_decimal (neg : bool) (m e10 : Z) : spec_float :=
  match m with
  | Zpos p =>
      if 0 <=? e10
      then binary_normalize prec emax (cond_Zopp neg (m * 10 ^ e10)) 0 false
      else SFdiv prec emax (S754_finite neg p 0)
                           (S754_finite false (Z.to_pos (10 ^ (- e10))) 0)
  | _ => S754_zero neg
  end.

(** [math.modf]: the integral part, as an integer, and the fractional
    part of a finite float, both carrying the sign of the argument. *)
Definition modf (f : spec_float) : Z * spec_float :=
  match f with
  | S754_finite s m e =>
      if 0 <=? e then (cond_Zopp s (Z.shiftl (Zpos m) e), S754_zero s)
      else
        let q := Z.shiftr (Zpos m) (- e) in
        let r := Zpos m - Z.shiftl q (- e) in
        (cond_Zopp s q,
         match r with
         | Zpos rp => binary_round prec emax s rp e
         | _ => S754_zero s
         end)
  | _ => (0, f)
  end.

(** Rounding of a finite float to the nearest integer, ties to even. *)
Definition round_half_even (f : spec_float) : Z :=
  match f with
  | S754_finite s m e =>
      if 0 <=? e then cond_Zopp s (Z.shiftl (Zpos m) e)
      else
        let q := Z.shiftr (Zpos m) (- e) in
        let r := Zpos m - Z.shiftl q (- e) in
        let half := Z.shiftl 1 (- e - 1) in
        let q' := match r ?= half with
                  | Lt => q
                  | Gt => q + 1
                  | Eq => if Z.even q then q else q + 1
                  end in
        cond_Zopp s q'
  | _ => 0
  end.

End Float.

Abbreviation float := spec_float.

(* ===================================================================== *)
(** * Exceptions and the result monad                                     *)
(* ===================================================================== *)

Inductive exn_kind :=
| TypeError | ValueError | OverflowError | AttributeError | OSError
| TransportError.

(** An exception: its class and its message ([str(exc)]). All of them
    derive from [Exception]. *)
Record exn := Exn { exn_class : exn_kind; exn_msg : string }.

Inductive result (A : Type) :=
| Ok (a : A)
| Raise (e : exn).
Arguments Ok {A} a.
Arguments Raise {A} e.

Definition rbind {A B} (r : result A) (k : A -> result B) : result B :=
  match r with
  | Ok a => k a
  | Raise e => Raise e
  end.

Notation "'let*' x ':=' c 'in' k" := (rbind c (fun x => k))
  (at level 10, x name, c at level 100, k at level 200).

(** A loop body run over a list, stopping at the first exception. *)
Fixpoint mapM {A B} (f : A -> result B) (l : list A) : result (list B) :=
  match l with
  | [] => Ok []
  | a :: l' =>
      let* b := f a in
      let* bs := mapM f l' in
      Ok (b :: bs)
  end.

(* ===================================================================== *)
(** * Python values                                                       *)
(* ===================================================================== *)

(** What [json.loads] builds from an API response. A dict is kept as its
    list of items; a key is looked up at its first occurrence. *)
#[warnings="-register-all"]
Inductive pyval :=
| PNone
| PBool (b : bool)
| PInt (z : Z)
| PFloat (f : float)
| PStr (s : string)
| PList (l : list pyval)
| PDict (items : list (string * pyval)).

(** Truth value of a Python object ([bool(v)]). *)
Definition truthy (v : pyval) : bool :=
  match v with
  | PNone => false
  | PBool b => b
  | PInt z => negb (z =? 0)
  | PFloat f => negb (Float.is_zero f)
  | PStr s => negb (String.eqb s "")
  | PList l => match l with [] => false | _ => true end
  | PDict d => match d with [] => false | _ => true end
  end.

(** [a or b]. *)
Definition py_or (a b : pyval) : pyval := if truthy a then a else b.

Fixpoint assoc (k : string) (items : list (string * pyval)) : option pyval :=
  match items with
  | [] => None
  | (k', v) :: rest => if String.eqb k k' then Some v else assoc k rest
  end.

(** The value under a key, [None] when the key is absent. *)
Definition field (items : list (string * pyval)) (k : string) : pyval :=
  match assoc k items with Some x => x | None => PNone end.

Definition no_get : exn :=
  Exn AttributeError "object has no attribute 'get'".

(** [v.get(k, default)]: only a dict has the method. *)
Definition py_get_default (v : pyval) (k : string) (default : pyval)
  : result pyval :=
  match v with
  | PDict items => Ok (match assoc k items with Some x => x | None => default end)
  | _ => Raise no_get
  end.

(** [v.get(k)]. *)
Definition py_get (v : pyval) (k : string) : result pyval :=
  py_get_default v k PNone.

Definition chars (s : string) : list pyval :=
  map (fun c => PStr (String c "")) (list_ascii_of_string s).

(** [for x in v]: the elements of a list, the characters of a string, the
    keys of a dict; other values are not iterable. *)
Definition py_iter (v : pyval) : result (list pyval) :=
  match v with
  | PList l => Ok l
  | PStr s => Ok (chars s)
  | PDict items => Ok (map (fun kv => PStr (fst kv)) items)
  | _ => Raise (Exn TypeError "object is not iterable")
  end.

(** [l[:n]] on a list: the first [n] elements, or all but the last [-n]
    when [n] is negative. *)
Definition slice_to {A} (n : Z) (l : list A) : list A :=
  if 0 <=? n then firstn (Z.to_nat n) l
  else firstn (Z.to_nat (Z.of_nat (length l) + n)) l.

(** [v[:n]]: lists and strings can be sliced; a dict takes the slice for
    a key and fails on it. *)
Definition py_slice_to (v : pyval) (n : Z) : result pyval :=
  match v with
  | PList l => Ok (PList (slice_to n l))
  | PStr s =>
      Ok (PStr (string_of_list_ascii (slice_to n (list_ascii_of_string s))))
  | PDict _ => Raise (Exn TypeError "unhashable type: 'slice'")
  | _ => Raise (Exn TypeError "object is not subscriptable")
  end.

(* ===================================================================== *)
(** * Strings: whitespace and float literals                              *)
(* ===================================================================== *)

(** Strings are byte strings (UTF-8); the whitespace and the digits
    recognised here are the ASCII ones. *)
Module Text.

Definition code (c : ascii) : Z := Z.of_N (N_of_ascii c).

(** [c.isspace()] on ASCII: TAB..CR, FS..US and the space. *)
Definition is_space (c : ascii) : bool :=
  ((9 <=? code c) && (code c <=? 13)) || ((28 <=? code c) && (code c <=? 32)).

Definition is_digit (c : ascii) : bool := (48 <=? code c) && (code c <=? 57).

Definition digit_val (c : ascii) : Z := code c - 48.

Definition lower (c : ascii) : ascii :=
  if (65 <=? code c) && (code c <=? 90)
  then ascii_of_N (N_of_ascii c + 32) else c.

Fixpoint lstrip (l : list ascii) : list ascii :=
  match l with
  | c :: l' => if is_space c then lstrip l' else l
  | [] => []
  end.

Definition strip_chars (l : list ascii) : list ascii :=
  rev (lstrip (rev (lstrip l))).

(** [s.strip()]. *)
Definition strip (s : string) : string :=
  string_of_list_ascii (strip_chars (list_ascii_of_string s)).

(** The blanks [float] skips at both ends of a literal: TAB..CR and the
    space. FS..US, which [strip] removes, are not among them:
    [float("\x1c7")] raises. *)
Definition is_blank (c : ascii) : bool :=
  ((9 <=? code c) && (code c <=? 13)) || (code c =? 32).

Fixpoint skip_blanks (l : list ascii) : list ascii :=
  match l with
  | c :: l' => if is_blank c then skip_blanks l' else l
  | [] => []
  end.

Definition trim_blanks (l : list ascii) : list ascii :=
  rev (skip_blanks (rev (skip_blanks l))).

(** The digits after the first one of a [digitpart]: digits, each
    optionally preceded by one underscore. Returns the accumulated value,
    the number of digits read and the unread input. *)
Fixpoint digits_tail (acc n : Z) (l : list ascii) : Z * Z * list ascii :=
  match l with
  | c :: l' =>
      if is_digit c then digits_tail (10 * acc + digit_val c) (n + 1) l'
      else if Ascii.eqb c "_" then
        match l' with
        | d :: l'' =>
            if is_digit d
            then digits_tail (10 * acc + digit_val d) (n + 1) l''
            else (acc, n, l)
        | [] => (acc, n, l)
        end
      else (acc, n, l)
  | [] => (acc, n, l)
  end.

Definition digitpart (acc : Z) (l : list ascii)
  : option (Z * Z * list ascii) :=
  match l with
  | c :: l' =>
      if is_digit c then Some (digits_tail (10 * acc + digit_val c) 1 l')
      else None
  | [] => None
  end.

Definition parse_sign (l : list ascii) : bool * list ascii :=
  match l with
  | c :: l' =>
      if Ascii.eqb c "-" then (true, l')
      else if Ascii.eqb c "+" then (false, l')
      else (false, l)
  | [] => (false, l)
  end.

(** The optional exponent, which must end the literal. *)
Definition parse_exponent (l : list ascii) : option Z :=
  match l with
  | [] => Some 0
  | c :: l' =>
      if Ascii.eqb (lower c) "e" then
        let '(neg, l'') := parse_sign l' in
        match digitpart 0 l'' with
        | Some (v, _, []) => Some (cond_Zopp neg v)
        | _ => None
        end
      else None
  end.

(** [digitpart] [.] [digitpart] [exponent], with a digit on at least one
    side of the point. *)
Definition parse_decimal (neg : bool) (l : list ascii) : option float :=
  let '(ip, ni, l1) :=
    match digitpart 0 l with Some r => r | None => (0, 0, l) end in
  let '(m, nf, l2) :=
    match l1 with
    | c :: l' =>
        if Ascii.eqb c "."
        then match digitpart ip l' with Some r => r | None => (ip, 0, l') end
        else (ip, 0, l1)
    | [] => (ip, 0, l1)
    end in
  if ni + nf =? 0 then None
  else match parse_exponent l2 with
       | Some e => Some (Float.of_decimal neg m (e - nf))
       | None => None
       end.

(** [float(s)] on a string; [None] stands for [ValueError]. *)
Definition float_of_string (s : string) : option float :=
  let '(neg, l) := parse_sign (trim_blanks (list_ascii_of_string s)) in
  let word := string_of_list_ascii (map lower l) in
  if String.eqb word "inf" || String.eqb word "infinity"
  then Some (S754_infinity neg)
  else if String.eqb word "nan" then Some Float.nan
  else parse_decimal neg l.

End Text.

(* ===================================================================== *)
(** * The numeric normaliser                                              *)
(* ===================================================================== *)

(** [float(value)]: the conversion and the exceptions it raises. *)
Definition py_float (value : pyval) : result float :=
  match value with
  | PNone => Raise (Exn TypeError "float() argument must be a string or a real number")
  | PBool b => Ok (Float.of_Z (if b then 1 else 0))
  | PInt z =>
      match Float.of_Z z with
      | S754_infinity _ => Raise (Exn OverflowError "int too large to convert to float")
      | f => Ok f
      end
  | PFloat f => Ok f
  | PStr s =>
      match Text.float_of_string s with
      | Some f => Ok f
      | None => Raise (Exn ValueError "could not convert string to float")
      end
  | PList _ | PDict _ =>
      Raise (Exn TypeError "float() argument must be a string or a real number")
  end.

(** [_safe_float]: [try: return float(value)] /
    [except Exception: return float("nan")]. *)
Definition _safe_float (value : pyval) : float :=
  match py_float value with
  | Ok f => f
  | Raise _ => Float.nan
  end.

(* ===================================================================== *)
(** * Timestamps                                                          *)
(* ===================================================================== *)

Module Datetime.

(** An aware [datetime] in UTC. *)
Record datetime := {
  year : Z; month : Z; day : Z;
  hour : Z; minute : Z; second : Z; microsecond : Z
}.

(** Proleptic Gregorian date of a day number counted from 1970-01-01. *)
Definition civil_from_days (days : Z) : Z * Z * Z :=
  let z := days + 719468 in
  let era := z / 146097 in
  let doe := z - era * 146097 in
  let yoe := (doe - doe / 1460 + doe / 36524 - doe / 146096) / 365 in
  let doy := doe - (365 * yoe + yoe / 4 - yoe / 100) in
  let mp := (5 * doy + 2) / 153 in
  let d := doy - (153 * mp + 2) / 5 + 1 in
  let m := if mp <? 10 then mp + 3 else mp - 9 in
  let y := yoe + era * 400 + (if m <=? 2 then 1 else 0) in
  (y, m, d).

Definition of_seconds (sec us : Z) : datetime :=
  let '(y, m, d) := civil_from_days (sec / 86400) in
  let r := sec mod 86400 in
  {| year := y; month := m; day := d;
     hour := r / 3600; minute := (r mod 3600) / 60; second := r mod 60;
     microsecond := us |}.

(** Seconds and microseconds of a finite float timestamp: the fraction is
    scaled by [1e6], rounded half to even, and carried into the seconds
    when it leaves [0, 10^6). *)
Definition split_timestamp (t : float) : Z * Z :=
  let '(intpart, frac) := Float.modf t in
  let us := Float.round_half_even (Float.mul frac (Float.of_Z 1000000)) in
  if 1000000 <=? us then (intpart + 1, us - 1000000)
  else if us <? 0 then (intpart - 1, us + 1000000)
  else (intpart, us).

(** [datetime.fromtimestamp(t, tz=timezone.utc)]. It raises [ValueError]
    on a NaN or a year outside 1..9999, [OverflowError] on a value
    outside [time_t] and [OSError] when [gmtime] cannot hold the year. *)
Definition fromtimestamp (t : float) : result datetime :=
  match t with
  | S754_nan => Raise (Exn ValueError "Invalid value NaN (not a number)")
  | S754_infinity _ =>
      Raise (Exn OverflowError "timestamp out of range for platform time_t")
  | _ =>
      let '(sec, us) := split_timestamp t in
      if (sec <? - 2 ^ 63) || (2 ^ 63 <=? sec)
      then Raise (Exn OverflowError "timestamp out of range for platform time_t")
      else
        let dt := of_seconds sec us in
        if (year dt - 1900 <? - 2 ^ 31) || (2 ^ 31 <=? year dt - 1900)
        then Raise (Exn OSError "[Errno 75] Value too large for defined data type")
        else if (year dt <? 1) || (9999 <? year dt)
        then Raise (Exn ValueError
                        ("year " ++ pretty (year dt) ++ " is out of range"))
        else Ok dt
  end.

Definition digit_char (n : Z) : ascii := ascii_of_N (Z.to_N (48 + n mod 10)).

(** The last [width] decimal digits of [n], zero padded, before [acc]. *)
Fixpoint digits (width : nat) (n : Z) (acc : string) : string :=
  match width with
  | O => acc
  | S w => digits w (n / 10) (String (digit_char n) acc)
  end.

(** [dt.isoformat()]: [YYYY-MM-DDTHH:MM:SS], the microseconds when they
    are not zero, and the UTC offset. *)
Definition isoformat (dt : datetime) : string :=
  digits 4 (year dt)
    (String "-" (digits 2 (month dt)
    (String "-" (digits 2 (day dt)
    (String "T" (digits 2 (hour dt)
    (String ":" (digits 2 (minute dt)
    (String ":" (digits 2 (second dt)
    ((if microsecond dt =? 0 then ""
      else String "." (digits 6 (microsecond dt) ""))
     ++ "+00:00"))))))))))).

End Datetime.

(* ===================================================================== *)
(** * The watch-list                                                      *)
(* ===================================================================== *)

(** One item of [st.session_state["wallet_entries"]]: both keys hold the
    text of a text input. *)
Record entry := { label : string; address : string }.

(** [_parse_entries]: entries without an address are dropped, an empty
    label defaults to the address. *)
Fixpoint _parse_entries (entries : list entry) : list entry :=
  match entries with
  | [] => []
  | item :: rest =>
      let addr := Text.strip (address item) in
      let lbl := Text.strip (label item) in
      if String.eqb addr "" then _parse_entries rest
      else {| label := if String.eqb lbl "" then addr else lbl;
              address := addr |} :: _parse_entries rest
  end.

(** [{e["address"]: e["label"] for e in entries}]: a later entry
    overwrites an earlier one with the same address. *)
Definition labels_of (entries : list entry) : gmap string string :=
  fold_left (fun m e => <[address e := label e]> m) entries ∅.

(** [labels_by_address.get(addr, addr)]. *)
Definition label_for (labels_by_address : gmap string string) (addr : string)
  : string :=
  match labels_by_address !! addr with
  | Some l => l
  | None => addr
  end.

(* ===================================================================== *)
(** * Rows of the two tables                                              *)
(* ===================================================================== *)

Module Fill.

Record row := {
  time : string;
  label : string;
  trader : string;
  coin : pyval;
  side : pyval;
  dir : pyval;
  price : float;
  size : float;
  notional : float;
  closed_pnl : float;
  fee : float;
  liquidation : pyval
}.

(** Descending order of the [time] column. *)
Definition time_ge (r1 r2 : row) : Prop := String.le (time r2) (time r1).

#[export] Instance time_ge_dec : RelDecision time_ge :=
  fun r1 r2 => String.le_dec (time r2) (time r1).

End Fill.

Module Position.

Record row := {
  label : string;
  trader : string;
  coin : pyval;
  size : float;
  entry_px : float;
  position_value : float;
  unrealized_pnl : float;
  return_on_equity : float;
  liquidation_px : float;
  margin_used : float;
  leverage_type : pyval;
  leverage_value : float
}.

(** The [coin] column holds whatever the payload has under ["coin"].
    pandas orders such a column with the numbers first, by value, then
    the strings, by code point, then the missing values ([None] and
    NaN). *)
Definition coin_rank (c : pyval) : Z :=
  match c with
  | PFloat (S754_infinity true) => 0
  | PBool _ | PInt _ | PFloat (S754_zero _) | PFloat (S754_finite _ _ _) => 1
  | PFloat (S754_infinity false) => 2
  | PStr _ => 3
  | PNone | PFloat S754_nan => 4
  | PList _ | PDict _ => 5
  end.

(** The values pandas orders that way. A list or an object in the column
    makes [sort_values] raise, and an integer beyond [2 ^ 53] is rounded
    when the column becomes one of floats; here such values are ordered
    all the same, lists and objects last, and the statements on the table
    that is shown leave them out. *)
Definition orderable (c : pyval) : bool :=
  match c with
  | PInt z => Z.abs z <=? 2 ^ 53
  | PList _ | PDict _ => false
  | _ => true
  end.

(** The value of a finite number, as a numerator over a power of two. *)
Definition coin_num (c : pyval) : Z * N :=
  match c with
  | PBool b => (if b then 1 else 0, 0%N)
  | PInt z => (z, 0%N)
  | PFloat (S754_finite s m e) =>
      match e with
      | Zneg p => (cond_Zopp s (Z.pos m), Npos p)
      | _ => (cond_Zopp s (Z.pos m) * 2 ^ e, 0%N)
      end
  | _ => (0, 0%N)
  end.

Definition num_leb (a b : Z * N) : bool :=
  fst a * 2 ^ Z.of_N (snd b) <=? fst b * 2 ^ Z.of_N (snd a).

Definition coin_str (c : pyval) : string :=
  match c with
  | PStr s => s
  | _ => ""
  end.

Definition coin_leb (c1 c2 : pyval) : bool :=
  match coin_rank c1 ?= coin_rank c2 with
  | Lt => true
  | Gt => false
  | Eq => num_leb (coin_num c1) (coin_num c2)
          && String.leb (coin_str c1) (coin_str c2)
  end.

(** Ascending order of the pair ([trader], [coin]). *)
Definition key_leb (r1 r2 : row) : bool :=
  if String.eqb (trader r1) (trader r2) then coin_leb (coin r1) (coin r2)
  else String.leb (trader r1) (trader r2).

Definition key_le (r1 r2 : row) : Prop := Is_true (key_leb r1 r2).

#[export] Instance key_le_dec : RelDecision key_le :=
  fun r1 r2 => Is_true_dec (key_leb r1 r2).

End Position.

(** [px * sz if px == px and sz == sz else float("nan")]. *)
Definition notional_of (px sz : float) : float :=
  if Float.eqb px px && Float.eqb sz sz then Float.mul px sz else Float.nan.

(** The timestamp a fill is dated with: [fill.get("time") or
    fill.get("timestamp")]. *)
Definition fill_ts (fill : pyval) : result pyval :=
  let* t := py_get fill "time" in
  if truthy t then Ok t else py_get fill "timestamp".

(** The body of the loop over the fills of one address: one row per raw
    fill. *)
Definition fill_row (labels_by_address : gmap string string) (addr : string)
  (fill : pyval) : result Fill.row :=
  let* ts := fill_ts fill in
  let ts_ms := match ts with PNone => Float.nan | _ => _safe_float ts end in
  let* dt :=
    if Float.eqb ts_ms ts_ms
    then let* d := Datetime.fromtimestamp (Float.div ts_ms (Float.of_Z 1000)) in
         Ok (Some d)
    else Ok None in
  let* px_v := py_get fill "px" in
  let px := _safe_float px_v in
  let* sz_v := py_get fill "sz" in
  let sz := _safe_float sz_v in
  let* coin := py_get fill "coin" in
  let* side := py_get fill "side" in
  let* dir := py_get fill "dir" in
  let* closed_pnl := py_get fill "closedPnl" in
  let* fee := py_get fill "fee" in
  let* liquidation := py_get fill "liquidation" in
  Ok {| Fill.time := match dt with Some d => Datetime.isoformat d | None => "" end;
        Fill.label := label_for labels_by_address addr;
        Fill.trader := addr;
        Fill.coin := coin;
        Fill.side := side;
        Fill.dir := dir;
        Fill.price := px;
        Fill.size := sz;
        Fill.notional := notional_of px sz;
        Fill.closed_pnl := _safe_float closed_pnl;
        Fill.fee := _safe_float fee;
        Fill.liquidation := liquidation |}.

(** The rows of one address whose fetch returned [fetched]:
    [for fill in (fetched or [])[: int(max_fills)]]. *)
Definition fill_rows (labels_by_address : gmap string string) (max_fills : Z)
  (addr : string) (fetched : pyval) : result (list Fill.row) :=
  let fills := py_or fetched (PList []) in
  let* capped := py_slice_to fills max_fills in
  let* items := py_iter capped in
  mapM (fill_row labels_by_address addr) items.

(** The body of the loop over the asset positions of one address: a row,
    or nothing ([continue]) for a position of size zero. *)
Definition position_row (labels_by_address : gmap string string)
  (addr : string) (ap : pyval) : result (option Position.row) :=
  let* pos := py_get_default ap "position" (PDict []) in
  let* szi_v := py_get pos "szi" in
  let szi := _safe_float szi_v in
  if Float.eqb szi (Float.of_Z 0) then Ok None
  else
    let* coin := py_get pos "coin" in
    let* entry_px := py_get pos "entryPx" in
    let* position_value := py_get pos "positionValue" in
    let* unrealized_pnl := py_get pos "unrealizedPnl" in
    let* return_on_equity := py_get pos "returnOnEquity" in
    let* liquidation_px := py_get pos "liquidationPx" in
    let* margin_used := py_get pos "marginUsed" in
    let* leverage := py_get_default pos "leverage" (PDict []) in
    let* leverage_type := py_get leverage "type" in
    let* leverage' := py_get_default pos "leverage" (PDict []) in
    let* leverage_value := py_get leverage' "value" in
    Ok (Some {| Position.label := label_for labels_by_address addr;
                Position.trader := addr;
                Position.coin := coin;
                Position.size := szi;
                Position.entry_px := _safe_float entry_px;
                Position.position_value := _safe_float position_value;
                Position.unrealized_pnl := _safe_float unrealized_pnl;
                Position.return_on_equity := _safe_float return_on_equity;
                Position.liquidation_px := _safe_float liquidation_px;
                Position.margin_used := _safe_float margin_used;
                Position.leverage_type := leverage_type;
                Position.leverage_value := _safe_float leverage_value |}).

Definition somes {A} (l : list (option A)) : list A :=
  flat_map (fun o => match o with Some a => [a] | None => [] end) l.

(** The rows of one address whose clearinghouse state is [state]:
    [for ap in (state or {}).get("assetPositions") or []]. *)
Definition position_rows (labels_by_address : gmap string string)
  (addr : string) (state : pyval) : result (list Position.row) :=
  let* aps := py_get (py_or state (PDict [])) "assetPositions" in
  let* items := py_iter (py_or aps (PList [])) in
  let* rows := mapM (position_row labels_by_address addr) items in
  Ok (somes rows).

(** [sort_values] orders the rows by the key and leaves rows with the
    same key in the order they had: a stable sort, here by insertion.
    (For the single key of the fills table pandas sorts with numpy's
    quicksort, which is an insertion sort on tables of up to 16 rows;
    on longer tables the order among rows of the same time is numpy's
    and is not modelled.) *)
Section StableSort.
Context {A : Type} (R : relation A) `{forall x y, Decision (R x y)}.

Fixpoint insert_sorted (x : A) (l : list A) : list A :=
  match l with
  | [] => [x]
  | y :: l' => if decide (R x y) then x :: l else y :: insert_sorted x l'
  end.

Fixpoint stable_sort (l : list A) : list A :=
  match l with
  | [] => []
  | x :: l' => insert_sorted x (stable_sort l')
  end.

End StableSort.

(** [fills_df.sort_values(by="time", ascending=False)]. *)
Definition sort_fills (rows : list Fill.row) : list Fill.row :=
  stable_sort Fill.time_ge rows.

(** [positions_df.sort_values(by=["trader", "coin"], ascending=True)]. *)
Definition sort_positions (rows : list Position.row) : list Position.row :=
  stable_sort Position.key_le rows.

(* ===================================================================== *)
(** * The world of the script: clock, cache, upstream service, page       *)
(* ===================================================================== *)

(** The body of a POST to the public [info] endpoint. *)
Inductive request :=
| UserFillsByTime (user : string) (startTime endTime : Z) (aggregateByTime : bool)
| ClearinghouseState (user : string).

(** The arguments of a cached call: those of [fetch_recent_fills] on the
    left, the one of [fetch_positions_single] on the right. *)
Abbreviation cache_key := ((string * Z * Z * bool) + string)%type.

(** What the script writes on the page. *)
Inductive element :=
| StWarning (body : string)
| StError (body : string)
| StInfo (body : string)
| StDataframeFills (rows : list Fill.row)
| StDataframePositions (rows : list Position.row).

Record world := {
  clock : Z;                              (* seconds *)
  cache : gmap cache_key (Z * pyval);     (* time of storage, value *)
  calls : list request;                   (* upstream calls, oldest first *)
  page : list element
}.

Definition set_cache (c : gmap cache_key (Z * pyval)) (w : world) : world :=
  {| clock := clock w; cache := c; calls := calls w; page := page w |}.

Definition set_calls (l : list request) (w : world) : world :=
  {| clock := clock w; cache := cache w; calls := l; page := page w |}.

Definition set_page (p : list element) (w : world) : world :=
  {| clock := clock w; cache := cache w; calls := calls w; page := p |}.

(** Time passing between two runs of the script. *)
Definition elapse (seconds : Z) (w : world) : world :=
  {| clock := clock w + seconds; cache := cache w; calls := calls w;
     page := page w |}.

(** A computation of the script: it may raise, and it changes the world
    either way. *)
Definition M (A : Type) : Type := world -> result A * world.

Definition ret {A} (a : A) : M A := fun w => (Ok a, w).

Definition bind {A B} (c : M A) (k : A -> M B) : M B :=
  fun w =>
    match c w with
    | (Ok a, w') => k a w'
    | (Raise e, w') => (Raise e, w')
    end.

Notation "'let!' x ':=' c 'in' k" := (bind c (fun x => k))
  (at level 10, x name, c at level 100, k at level 200).

Definition lift {A} (r : result A) : M A := fun w => (r, w).

(** [try: c] with the exception, if any, handed to the handler. *)
Definition try_except {A} (c : M A) : M (result A) :=
  fun w => let '(r, w') := c w in (Ok r, w').

Definition write (e : element) : M unit :=
  fun w => (Ok tt, set_page (page w ++ [e]) w).

Definition st_error (body : string) : M unit := write (StError body).
Definition st_warning (body : string) : M unit := write (StWarning body).
Definition st_info (body : string) : M unit := write (StInfo body).

(** Modelled from the spec: the TTL cache behind [@st.cache_data(ttl=30)]
    and [st.cache_data.clear()], which is Streamlit's and not part of the
    source. While an entry for the key is younger than the TTL a call
    returns the cached value without invoking [compute_fn]; after expiry
    the next call recomputes and replaces the entry; a computation that
    raises stores nothing; [clear] invalidates all entries. *)
Definition ttl : Z := 30.

Definition young (now : Z) (e : Z * pyval) : bool := now - fst e <? ttl.

Definition cache_hit (key : cache_key) (w : world) : option pyval :=
  match cache w !! key with
  | Some e => if young (clock w) e then Some (snd e) else None
  | None => None
  end.

Definition get_or_compute (key : cache_key) (compute_fn : M pyval) : M pyval :=
  fun w =>
    match cache_hit key w with
    | Some v => (Ok v, w)
    | None =>
        match compute_fn w with
        | (Ok v, w') => (Ok v, set_cache (<[key := (clock w', v)]> (cache w')) w')
        | (Raise e, w') => (Raise e, w')
        end
    end.

Definition cache_clear : M unit := fun w => (Ok tt, set_cache ∅ w).

(** The sidebar inputs of one run, with the bounds of the fill window the
    script derives from the wall clock. *)
Record inputs := {
  wallet_entries : list entry;
  max_fills : Z;                 (* number input, 10 to 2000 *)
  aggregate_by_time : bool;
  window_hours : Z;              (* slider, 1 to 24 *)
  refresh : bool;                (* the "Refresh now" button *)
  start_ms : Z;
  end_ms : Z
}.

Section Script.

(** The exchange: the answer to the [n]-th request the process sends,
    a response or a transport error. *)
Variable upstream : nat -> request -> result pyval.

(** [_public_info]: one request to the exchange. *)
Definition _public_info (payload : request) : M pyval :=
  fun w =>
    (upstream (length (calls w)) payload, set_calls (calls w ++ [payload]) w).

Definition fetch_recent_fills (address : string) (start_ms end_ms : Z)
  (aggregate_by_time : bool) : M pyval :=
  get_or_compute (inl (address, start_ms, end_ms, aggregate_by_time))
    (_public_info (UserFillsByTime address start_ms end_ms aggregate_by_time)).

Definition fetch_positions_single (address : string) : M pyval :=
  get_or_compute (inr address) (_public_info (ClearinghouseState address)).

Section Run.

Variable inp : inputs.
Variable labels_by_address : gmap string string.

(** [for addr in addresses:] of the fills section. *)
Fixpoint fills_loop (addresses : list string) (fills_rows : list Fill.row)
  : M (list Fill.row) :=
  match addresses with
  | [] => ret fills_rows
  | addr :: rest =>
      let! r := try_except
                  (fetch_recent_fills addr (start_ms inp) (end_ms inp)
                     (aggregate_by_time inp)) in
      match r with
      | Raise exc =>
          let! _ := st_error ("Failed to load fills for " ++ addr ++ ": "
                              ++ exn_msg exc) in
          fills_loop rest fills_rows
      | Ok fetched =>
          let! rows := lift (fill_rows labels_by_address (max_fills inp)
                               addr fetched) in
          fills_loop rest (fills_rows ++ rows)
      end
  end.

(** [for addr in addresses:] of the positions section. *)
Fixpoint positions_loop (addresses : list string)
  (positions_rows : list Position.row) : M (list Position.row) :=
  match addresses with
  | [] => ret positions_rows
  | addr :: rest =>
      let! r := try_except (fetch_positions_single addr) in
      match r with
      | Raise exc =>
          let! _ := st_error ("Failed to load positions for " ++ addr
                              ++ ": " ++ exn_msg exc) in
          positions_loop rest positions_rows
      | Ok state =>
          let! rows := lift (position_rows labels_by_address addr state) in
          positions_loop rest (positions_rows ++ rows)
      end
  end.

End Run.

Definition fills_section (inp : inputs) (labels : gmap string string)
  (addresses : list string) : M unit :=
  let! fills_rows := fills_loop inp labels addresses [] in
  match fills_rows with
  | [] => st_info ("No fills found in the last " ++ pretty (window_hours inp)
                   ++ " hours for the provided addresses.")
  | _ => write (StDataframeFills (sort_fills fills_rows))
  end.

Definition positions_section (labels : gmap string string)
  (addresses : list string) : M unit :=
  let! positions_rows := positions_loop labels addresses [] in
  match positions_rows with
  | [] => st_info "No active positions found for the provided addresses."
  | _ => write (StDataframePositions (sort_positions positions_rows))
  end.

(** One run of the script, from the parsing of the watch-list on. *)
Definition script (inp : inputs) : M unit :=
  let entries := _parse_entries (wallet_entries inp) in
  let addresses := map address entries in
  let labels_by_address := labels_of entries in
  let! _ := if refresh inp then cache_clear else ret tt in
  match addresses with
  | [] =>
      st_warning "Add at least one trader address in the sidebar to load data."
  | _ =>
      let! _ := fills_section inp labels_by_address addresses in
      positions_section labels_by_address addresses
  end.

End Script.

(* ===================================================================== *)
(** * Shapes of the payloads                                              *)
(* ===================================================================== *)

(** The normalised signed size of an asset position:
    [_safe_float(ap.get("position", {}).get("szi"))]. *)
Definition szi_of (ap : pyval) : result float :=
  let* pos := py_get_default ap "position" (PDict []) in
  let* szi_v := py_get pos "szi" in
  Ok (_safe_float szi_v).

Definition is_dict (v : pyval) : bool :=
  match v with PDict _ => true | _ => false end.

(** An asset position as the API documents it: an object whose [position],
    and the [leverage] inside it, are objects when they are present. *)
Definition well_shaped (ap : pyval) : bool :=
  match ap with
  | PDict items =>
      match assoc "position" items with
      | None => true
      | Some (PDict pos) =>
          match assoc "leverage" pos with
          | None => true
          | Some lev => is_dict lev
          end
      | Some _ => false
      end
  | _ => false
  end.


(* ===================================================================== *)
(** * Outcomes of the fetches                                             *)
(* ===================================================================== *)

(** What each address of the watch-list gets from [fetch], taken in turn:
    a payload or the exception of a failed fetch. *)
Fixpoint fetch_all (fetch : string -> M pyval) (addresses : list string)
  (w : world) : list (string * result pyval) * world :=
  match addresses with
  | [] => ([], w)
  | addr :: rest =>
      let '(r, w1) := fetch addr w in
      let '(outs, w2) := fetch_all fetch rest w1 in
      ((addr, r) :: outs, w2)
  end.

(** The addresses whose fetch failed, with the exception. *)
Definition failed (outs : list (string * result pyval)) : list (string * exn) :=
  flat_map (fun o => match snd o with
                     | Raise e => [(fst o, e)]
                     | Ok _ => []
                     end) outs.

(** The addresses whose fetch succeeded, with the payload. *)
Definition succeeded (outs : list (string * result pyval))
  : list (string * pyval) :=
  flat_map (fun o => match snd o with
                     | Ok v => [(fst o, v)]
                     | Raise _ => []
                     end) outs.

Definition fills_failure (o : string * exn) : element :=
  StError ("Failed to load fills for " ++ fst o ++ ": " ++ exn_msg (snd o)).

Definition positions_failure (o : string * exn) : element :=
  StError ("Failed to load positions for " ++ fst o ++ ": " ++ exn_msg (snd o)).

(** What closes the fills section: the sorted table, or a notice when
    there is no row. *)
Definition fills_outcome (inp : inputs) (rows : list Fill.row) : element :=
  match rows with
  | [] => StInfo ("No fills found in the last " ++ pretty (window_hours inp)
                  ++ " hours for the provided addresses.")
  | _ => StDataframeFills (sort_fills rows)
  end.

Definition positions_outcome (rows : list Position.row) : element :=
  match rows with
  | [] => StInfo "No active positions found for the provided addresses."
  | _ => StDataframePositions (sort_positions rows)
  end.


(* ===================================================================== *)
(** * What a well-ordered page element is                                 *)
(* ===================================================================== *)

(** A fills table is in order when it is sorted by descending time, so
    that rows without a time, whose time is the empty string, come last;
    a positions table when it is sorted by ascending (trader, coin). *)
Definition in_order (e : element) : Prop :=
  match e with
  | StDataframeFills t =>
      StronglySorted Fill.time_ge t /\
      (forall l1 r l2, t = l1 ++ r :: l2 -> Fill.time r = "" ->
                       Forall (fun r' => Fill.time r' = "") l2)
  | StDataframePositions t => StronglySorted Position.key_le t
  | _ => True
  end.

(** A computation that only appends elements in order to the page. *)
Definition writes_in_order {A} (c : M A) : Prop :=
  forall w, exists new,
    page (snd (c w)) = page w ++ new /\ Forall in_order new.

(** A computation that neither reads nor writes the page. *)
Definition page_blind {A} (c : M A) : Prop :=
  forall p w, c (set_page p w) = (fst (c w), set_page p (snd (c w))).

(* ===================================================================== *)
(** * Sample data                                                         *)
(* ===================================================================== *)

Module Sample.

Definition w0 : world :=
  {| clock := 0; cache := ∅; calls := []; page := [] |}.

(** The fill of the first end-to-end scenario of the specification. *)
Definition fill1 : pyval :=
  PDict [("time", PInt 1000); ("coin", PStr "BTC"); ("side", PStr "B");
         ("px", PStr "100.5"); ("sz", PStr "2"); ("closedPnl", PStr "0");
         ("fee", PStr "0.1")].

(** A fill dated in microseconds instead of milliseconds. *)
Definition fill_us : pyval :=
  PDict [("time", PInt 1700000000000000); ("coin", PStr "BTC");
         ("px", PStr "1"); ("sz", PStr "1")].

(** A fill whose [time] is not a number, with a usable [timestamp]. *)
Definition fill_abc : pyval :=
  PDict [("time", PStr "abc"); ("timestamp", PInt 1000)].

(** An ETH position of signed size [szi]. *)
Definition position (szi : pyval) : pyval :=
  PDict [("position", PDict [("coin", PStr "ETH"); ("szi", szi)])].

(** An ETH position of size 1.5 whose [leverage] is [null]. *)
Definition position_null_leverage : pyval :=
  PDict [("position", PDict [("coin", PStr "ETH"); ("szi", PStr "1.5");
                             ("leverage", PNone)])].

(** Eleven fills, oldest first, one per second from 00:00:01 on. *)
Definition eleven_fills : list pyval :=
  map (fun i => PDict [("time", PInt (1000 * Z.of_nat i)); ("px", PStr "1");
                       ("sz", PStr "1")]) (seq 1 11).

Definition inputs_of (entries : list entry) : inputs :=
  {| wallet_entries := entries; max_fills := 200;
     aggregate_by_time := false; window_hours := 24; refresh := false;
     start_ms := 0; end_ms := 86400000 |}.

Definition one_trader : list entry := [{| label := "A"; address := "0x1" |}].

Definition two_traders : list entry :=
  [{| label := "A"; address := "0x1" |}; {| label := "B"; address := "0x2" |}].


(** An exchange that answers every fills request with [fills] and every
    state request with an empty state. *)
Definition serve (fills : pyval) (n : nat) (r : request) : result pyval :=
  match r with
  | UserFillsByTime _ _ _ _ => Ok fills
  | ClearinghouseState _ => Ok (PDict [])
  end.

(** An exchange that answers every fills request with [fills] and every
    state request with [state]. *)
Definition serve_both (fills state : pyval) (n : nat) (r : request)
  : result pyval :=
  match r with
  | UserFillsByTime _ _ _ _ => Ok fills
  | ClearinghouseState _ => Ok state
  end.

(** A fill without a time. *)
Definition fill_undated : pyval :=
  PDict [("coin", PStr "BTC"); ("px", PStr "1"); ("sz", PStr "1")].

(** A fill at [t] milliseconds. *)
Definition fill_at (t : Z) : pyval :=
  PDict [("time", PInt t); ("coin", PStr "BTC"); ("px", PStr "1");
         ("sz", PStr "1")].

(** A position of size 1 in [coin]. *)
Definition position_in (coin : pyval) : pyval :=
  PDict [("position", PDict [("coin", coin); ("szi", PStr "1")])].

Definition timeout : exn := Exn TransportError "timed out".

(** An exchange that times out on the address [0x2]. *)
Definition serve_but_0x2 (n : nat) (r : request) : result pyval :=
  match r with
  | UserFillsByTime user _ _ _ =>
      if String.eqb user "0x2" then Raise timeout else Ok (PList [fill1])
  | ClearinghouseState user =>
      if String.eqb user "0x2" then Raise timeout
      else Ok (PDict [("assetPositions",
                       PList [PDict [("position",
                                      PDict [("coin", PStr "ETH");
                                             ("szi", PStr "1.5")])]])])
  end.

End Sample.

(* ===================================================================== *)
(** * Editing the watch-list                                              *)
(* ===================================================================== *)

(** [f"Trader {n}"]. *)
Definition trader_label (n : nat) : string := "Trader " ++ pretty n.

(** The "Add trader" button: a new entry without an address. *)
Definition add_trader (entries : list entry) : list entry :=
  entries ++ [{| label := trader_label (length entries + 1); address := "" |}].

Module Upload.

(** The characters [str.splitlines] breaks a line at, among the ASCII
    ones: LF, VT, FF, CR, FS, GS and RS. *)
Definition is_linebreak (c : ascii) : bool :=
  ((10 <=? Text.code c) && (Text.code c <=? 13))
  || ((28 <=? Text.code c) && (Text.code c <=? 30)).

Definition is_cr (c : ascii) : bool := Text.code c =? 13.
Definition is_lf (c : ascii) : bool := Text.code c =? 10.

(** [raw.splitlines()], with the current line kept in reverse: a CR
    followed by a LF is one break, and a break at the very end opens no
    further line. *)
Fixpoint splitlines_go (cur l : list ascii) : list (list ascii) :=
  match l with
  | [] => match cur with [] => [] | _ => [rev cur] end
  | c :: l' =>
      if is_linebreak c then
        rev cur ::
          match l' with
          | d :: l'' =>
              if is_cr c && is_lf d then splitlines_go [] l''
              else splitlines_go [] l'
          | [] => []
          end
      else splitlines_go (c :: cur) l'
  end.

Definition splitlines (l : list ascii) : list (list ascii) :=
  splitlines_go [] l.

(** [line.split(",")], with the current item kept in reverse. *)
Fixpoint split_go (cur l : list ascii) : list (list ascii) :=
  match l with
  | [] => [rev cur]
  | c :: l' =>
      if Ascii.eqb c "," then rev cur :: split_go [] l'
      else split_go (c :: cur) l'
  end.

Definition split_comma (l : list ascii) : list (list ascii) := split_go [] l.

(** The items of one line that are not blank, stripped. *)
Definition line_tokens (line : list ascii) : list string :=
  List.filter (fun val => negb (String.eqb val ""))
    (map (fun item => string_of_list_ascii (Text.strip_chars item))
       (split_comma line)).

(** The addresses read from an uploaded file, given as its decoded text:
    [for line in raw.splitlines(): for item in line.split(","):] keep
    [item.strip()] when it is not empty. *)
Definition tokens (raw : string) : list string :=
  flat_map line_tokens (splitlines (list_ascii_of_string raw)).

(** [for addr in tokens:] append an entry labelled after its rank. *)
Fixpoint append_all (addrs : list string) (entries : list entry) : list entry :=
  match addrs with
  | [] => entries
  | addr :: rest =>
      append_all rest
        (entries ++ [{| label := trader_label (length entries + 1);
                        address := addr |}])
  end.

(** The entries of the session after one execution of the upload block
    (the [st.rerun()] that ends the block starts the script again, and
    with it this block, for as long as the uploader holds the file). *)
Definition upload (raw : string) (entries : list entry) : list entry :=
  append_all (tokens raw) entries.

End Upload.

(* ===================================================================== *)
(** * Predicates of the further properties                                *)
(* ===================================================================== *)

(** A text that does not start with a space. *)
Definition no_lead (l : list ascii) : Prop :=
  match l with
  | c :: _ => Text.is_space c = false
  | [] => True
  end.

(** An entry as [_parse_entries] leaves it: an address and a label that
    are not empty and carry no space at either end. *)
Definition clean (e : entry) : Prop :=
  address e <> "" /\ label e <> "" /\
  Text.strip (address e) = address e /\ Text.strip (label e) = label e.

(** A request the run of the script may send for the watch-list
    [addresses]: the fills of one of the addresses over the window of the
    inputs, or its clearinghouse state. *)
Definition asks_for (inp : inputs) (addresses : list string) (r : request)
  : Prop :=
  exists a, In a addresses /\
    (r = UserFillsByTime a (start_ms inp) (end_ms inp) (aggregate_by_time inp)
     \/ r = ClearinghouseState a).

(** A computation that sends at most [n] requests, all of them in [P],
    and leaves the earlier calls and the clock as they were. *)
Definition sends_at_most {A} (P : request -> Prop) (n : nat) (c : M A) : Prop :=
  forall w, exists new,
    calls (snd (c w)) = calls w ++ new /\ Forall P new /\
    (length new <= n)%nat /\ clock (snd (c w)) = clock w.

(** The timestamp of a raw fill given by its items, normalised:
    [ts_ms] in the loop over the fills. *)
Definition fill_ts_ms (items : list (string * pyval)) : float :=
  let ts := if truthy (field items "time") then field items "time"
            else field items "timestamp" in
  match ts with PNone => Float.nan | _ => _safe_float ts end.

Definition is_raise {A} (r : result A) : bool :=
  match r with Raise _ => true | Ok _ => false end.

(** The fields of a datetime, from the year down to the microsecond. *)
Definition dt_fields (d : Datetime.datetime) : list Z :=
  [Datetime.year d; Datetime.month d; Datetime.day d; Datetime.hour d;
   Datetime.minute d; Datetime.second d; Datetime.microsecond d].

Fixpoint lex_compare (a b : list Z) : comparison :=
  match a, b with
  | x :: a', y :: b' =>
      match x ?= y with
      | Eq => lex_compare a' b'
      | c => c
      end
  | _, _ => Eq
  end.

(** [d1 < d2], [d1 == d2] or [d1 > d2] on datetimes of one time zone:
    the order of their fields. *)
Definition dt_compare (d1 d2 : Datetime.datetime) : comparison :=
  lex_compare (dt_fields d1) (dt_fields d2).

(** A datetime whose fields fit the widths [isoformat] prints them in. *)
Definition printable (d : Datetime.datetime) : Prop :=
  0 <= Datetime.year d < 10 ^ 4 /\
  0 <= Datetime.month d < 10 ^ 2 /\ 0 <= Datetime.day d < 10 ^ 2 /\
  0 <= Datetime.hour d < 10 ^ 2 /\ 0 <= Datetime.minute d < 10 ^ 2 /\
  0 <= Datetime.second d < 10 ^ 2 /\ 0 <= Datetime.microsecond d < 10 ^ 6.

Definition is_inf (f : float) : bool :=
  match f with S754_infinity _ => true | _ => false end.

(** A string of the blanks [float] skips: tabs, line feeds, vertical
    tabs, form feeds, carriage returns and spaces. *)
Definition all_blanks (s : string) : Prop :=
  Forall (fun c => Text.is_blank c = true) (list_ascii_of_string s).

(** A world whose cached entries were all stored at the present time, as
    after a refresh or at the start of the process. *)
Definition stamped_now (w : world) : Prop :=
  forall k e, cache w !! k = Some e -> fst e = clock w.

(** A world whose cache holds the clearinghouse state of every address
    of [addresses], stored at [t], less than the TTL ago. *)
Definition positions_cached (t : Z) (addresses : list string) (w : world)
  : Prop :=
  clock w - t < ttl /\
  forall a, In a addresses ->
    exists v, cache w !! (inr a : cache_key) = Some (t, v).

(** A computation that, from such a world, leads to such a world and
    sends requests of [P] only. *)
Definition sends_only {A} (P : request -> Prop) (t : Z)
  (addresses : list string) (c : M A) : Prop :=
  forall w, positions_cached t addresses w ->
    positions_cached t addresses (snd (c w)) /\
    exists new, calls (snd (c w)) = calls w ++ new /\ Forall P new.

(** A fills request for one of [addresses] over the window of [inp]. *)
Definition fills_request (inp : inputs) (addresses : list string)
  (r : request) : Prop :=
  exists a, In a addresses /\
    r = UserFillsByTime a (start_ms inp) (end_ms inp) (aggregate_by_time inp).

(* ===================================================================== *)
(** * Properties                                                          *)
(* ===================================================================== *)

(** ** Floats *)

Lemma eqb_self (x : float) : Float.eqb x x = negb (Float.is_nan x).
Proof.
  destruct x as [s|s| |s m e]; unfold Float.eqb, SFeqb; simpl;
    try reflexivity; destruct s; try reflexivity;
    rewrite Z.compare_refl, Pos.compare_cont_refl; reflexivity.
Qed.

Lemma eqb_zero (x : float) : Float.eqb x (Float.of_Z 0) = Float.is_zero x.
Proof. destruct x as [s|s| |s m e]; try destruct s; reflexivity. Qed.

Lemma notional_of_spec (px sz : float) :
  notional_of px sz =
  if Float.is_nan px || Float.is_nan sz then Float.nan else Float.mul px sz.
Proof.
  unfold notional_of. rewrite !eqb_self.
  destruct (Float.is_nan px), (Float.is_nan sz); reflexivity.
Qed.

(** ** The result monad *)

Lemma rbind_ok {A B} (c : result A) (k : A -> result B) (b : B) :
  rbind c k = Ok b -> exists a, c = Ok a /\ k a = Ok b.
Proof. destruct c as [a|e]; simpl; [eauto | discriminate]. Qed.

Lemma mapM_length {A B} (f : A -> result B) l bs :
  mapM f l = Ok bs -> length bs = length l.
Proof.
  revert bs. induction l as [|a l IH]; simpl; intros bs H.
  - injection H as <-. reflexivity.
  - apply rbind_ok in H as (b & _ & H). apply rbind_ok in H as (bs' & H' & H).
    injection H as <-. simpl. f_equal. auto.
Qed.

Lemma mapM_Forall2 {A B} (f : A -> result B) l bs :
  mapM f l = Ok bs <-> Forall2 (fun a b => f a = Ok b) l bs.
Proof.
  revert bs. induction l as [|a l IH]; simpl; intros bs; split; intros H.
  - injection H as <-. constructor.
  - inversion H. reflexivity.
  - apply rbind_ok in H as (b & Hb & H). apply rbind_ok in H as (bs' & H' & H).
    injection H as <-. constructor; [exact Hb | apply IH, H'].
  - inversion H as [|? b ? bs' Hb Hbs]; subst. rewrite Hb. simpl.
    apply IH in Hbs. rewrite Hbs. reflexivity.
Qed.

(** ** Reading a raw fill *)

Lemma py_get_of_dict (items : list (string * pyval)) (k : string) :
  py_get (PDict items) k =
  Ok (field items k).
Proof. reflexivity. Qed.

(** What the row builder does on a dict, with the timestamp made explicit. *)
Lemma fill_row_dict labels addr items :
  fill_row labels addr (PDict items) =
  let field := field items in
  let ts := if truthy (field "time") then field "time" else field "timestamp" in
  let ts_ms := match ts with PNone => Float.nan | _ => _safe_float ts end in
  let px := _safe_float (field "px") in
  let sz := _safe_float (field "sz") in
  let* dt :=
    if Float.eqb ts_ms ts_ms
    then let* d := Datetime.fromtimestamp (Float.div ts_ms (Float.of_Z 1000)) in
         Ok (Some d)
    else Ok None in
  Ok {| Fill.time := match dt with Some d => Datetime.isoformat d | None => "" end;
        Fill.label := label_for labels addr;
        Fill.trader := addr;
        Fill.coin := field "coin";
        Fill.side := field "side";
        Fill.dir := field "dir";
        Fill.price := px;
        Fill.size := sz;
        Fill.notional := notional_of px sz;
        Fill.closed_pnl := _safe_float (field "closedPnl");
        Fill.fee := _safe_float (field "fee");
        Fill.liquidation := field "liquidation" |}.
Proof.
  unfold fill_row, fill_ts. rewrite !py_get_of_dict. simpl.
  destruct (truthy _); reflexivity.
Qed.

Lemma fill_row_not_dict labels addr fill :
  (forall items, fill <> PDict items) ->
  fill_row labels addr fill = Raise no_get.
Proof. intros H. destruct fill; try reflexivity. now destruct (H items). Qed.

Lemma digits_cons (w : nat) (n : Z) (c : ascii) (acc : string) :
  Datetime.digits w n (String c acc) <> "".
Proof.
  revert n c acc. induction w as [|w IH]; simpl; intros n c acc.
  - discriminate.
  - apply IH.
Qed.

Lemma isoformat_nonempty (dt : Datetime.datetime) : Datetime.isoformat dt <> "".
Proof. unfold Datetime.isoformat. apply digits_cons. Qed.

(** ** The numeric normaliser *)

(** C5. For every input value [_safe_float] is a total function into the
    floats, so no call raises: when [float(value)] converts, the result is
    that float, and when it raises, whatever the exception, the result is
    NaN. In particular [None], a list, a dict, a string that is not a float
    literal and an integer too large for a float all normalise to NaN. *)
Theorem safe_float_never_raises (value : pyval) :
  (exists f, _safe_float value = f /\
     (py_float value = Ok f \/
      (exists e, py_float value = Raise e) /\ f = Float.nan)) /\
  _safe_float PNone = Float.nan /\
  (forall l, _safe_float (PList l) = Float.nan) /\
  (forall d, _safe_float (PDict d) = Float.nan) /\
  (forall s, Text.float_of_string s = None -> _safe_float (PStr s) = Float.nan) /\
  (forall z s, Float.of_Z z = S754_infinity s -> _safe_float (PInt z) = Float.nan).
Proof.
  split; [|repeat split].
  - unfold _safe_float. destruct (py_float value) as [f|e]; eauto 6.
  - intros s H. unfold _safe_float. simpl. now rewrite H.
  - intros z s H. unfold _safe_float. simpl. now rewrite H.
Qed.

Example safe_float_samples :
  map _safe_float [PStr "100.5"; PStr " 2 "; PInt 3; PBool true; PStr "abc";
                   PStr ""; PNone; PList []; PStr "nan"; PInt (2 ^ 1024)]
  = [S754_finite false 7072058789855232 (-46);
     S754_finite false 4503599627370496 (-51);
     S754_finite false 6755399441055744 (-51);
     S754_finite false 4503599627370496 (-52);
     Float.nan; Float.nan; Float.nan; Float.nan; Float.nan; Float.nan].
Proof. vm_compute. reflexivity. Qed.

(** ** Fill rows *)

(** C2. In every fill row the price and the size are the normalised [px]
    and [sz] of the raw fill, and the notional is NaN when either of them
    is NaN and their floating-point product otherwise. *)
Theorem notional_is_product labels addr fill r :
  fill_row labels addr fill = Ok r ->
  (exists items, fill = PDict items /\
     Fill.price r = _safe_float (field items "px") /\
     Fill.size r = _safe_float (field items "sz")) /\
  Fill.notional r =
    if Float.is_nan (Fill.price r) || Float.is_nan (Fill.size r)
    then Float.nan
    else Float.mul (Fill.price r) (Fill.size r).
Proof.
  intros H.
  destruct fill as [| | | | | |items];
    try (rewrite fill_row_not_dict in H by discriminate; discriminate).
  rewrite fill_row_dict in H. cbv zeta in H.
  apply rbind_ok in H as (dt & _ & H). injection H as <-. simpl.
  split; [eauto | apply notional_of_spec].
Qed.

Lemma notional_is_product_witness :
  exists r, fill_row ∅ "0x1" Sample.fill1 = Ok r /\
            Fill.notional r = Float.of_Z 201.
Proof.
  destruct (fill_row ∅ "0x1" Sample.fill1) as [r|e] eqn:E;
    [|vm_compute in E; discriminate].
  exists r. split; [reflexivity|].
  destruct (notional_is_product _ _ _ _ E) as [(items & Hitems & Hpx & Hsz) ->].
  rewrite Hpx, Hsz. injection Hitems as <-. vm_compute. reflexivity.
Defined.

(** C9, as the code has it: a raw fill dated in microseconds converts to a
    float, passes the NaN test, and [datetime.fromtimestamp] raises on it;
    nothing catches the exception, so the run of the script stops there
    and shows no table, although the exchange answered every request. *)
Theorem fill_row_raises_on_far_time :
  fill_row ∅ "0x1" Sample.fill_us
  = Raise (Exn ValueError "year 55840 is out of range") /\
  let run := script (Sample.serve (PList [Sample.fill1; Sample.fill_us]))
               (Sample.inputs_of Sample.two_traders) Sample.w0 in
  fst run = Raise (Exn ValueError "year 55840 is out of range") /\
  page (snd run) = [].
Proof. vm_compute. repeat split. Qed.

(** C10, as stated, fails: a fill whose [time] is present and truthy but
    not a number gets an empty time, although its [timestamp] is usable. *)
Lemma empty_time_despite_truthy_time :
  ~ (forall items r,
       fill_row ∅ "0x1" (PDict items) = Ok r ->
       Fill.time r = "" ->
       truthy (field items "time") = false /\
       truthy (field items "timestamp") = false).
Proof.
  intros H.
  destruct (H [("time", PStr "abc"); ("timestamp", PInt 1000)] _ eq_refl eq_refl)
    as [H1 _].
  vm_compute in H1. discriminate.
Qed.

(** C10, amended. The timestamp of a raw fill is its [time] when that is
    truthy and its [timestamp] otherwise, so an absent or falsy [time]
    defers to [timestamp]; the row gets an empty time exactly when the
    chosen value is [None] or normalises to NaN. *)
Theorem fill_time_fallback labels addr items :
  let ts := if truthy (field items "time") then field items "time"
            else field items "timestamp" in
  fill_ts (PDict items) = Ok ts /\
  (truthy (field items "time") = false ->
   fill_ts (PDict items) = Ok (field items "timestamp")) /\
  (forall r, fill_row labels addr (PDict items) = Ok r ->
     (Fill.time r = "" <->
      ts = PNone \/ Float.is_nan (_safe_float ts) = true)).
Proof.
  cbv zeta. unfold fill_ts. rewrite py_get_of_dict. simpl.
  split; [destruct (truthy _); reflexivity|].
  split; [intros ->; reflexivity|].
  intros r H. rewrite fill_row_dict in H. cbv zeta in H.
  set (ts := if truthy (field items "time") then _ else _) in *.
  rewrite eqb_self in H.
  set (ts_ms := match ts with PNone => Float.nan | _ => _safe_float ts end) in *.
  assert (Hnan : Float.is_nan ts_ms = true <->
                 ts = PNone \/ Float.is_nan (_safe_float ts) = true).
  { subst ts_ms. destruct ts; simpl; intuition congruence. }
  rewrite <- Hnan. destruct (Float.is_nan ts_ms); simpl in H.
  - injection H as <-. simpl. tauto.
  - apply rbind_ok in H as (dt & Hdt & H). injection H as <-. simpl.
    apply rbind_ok in Hdt as (d & _ & Hd). injection Hd as <-.
    split; [intros E; now apply isoformat_nonempty in E | discriminate].
Qed.

Lemma fill_time_fallback_witness :
  fill_ts (PDict [("time", PInt 0); ("timestamp", PInt 1000)]) = Ok (PInt 1000) /\
  exists r, fill_row ∅ "0x1" Sample.fill_abc = Ok r /\ Fill.time r = "".
Proof.
  split.
  - apply (fill_time_fallback ∅ "0x1" [("time", PInt 0); ("timestamp", PInt 1000)]).
    reflexivity.
  - eexists. split; [vm_compute; reflexivity|].
    apply (fill_time_fallback ∅ "0x1" [("time", PStr "abc"); ("timestamp", PInt 1000)]).
    + vm_compute. reflexivity.
    + right. vm_compute. reflexivity.
Defined.

(** ** Position rows *)

Lemma is_dict_inv (v : pyval) : is_dict v = true -> exists items, v = PDict items.
Proof. destruct v; try discriminate. eauto. Qed.

(** The row builder on a position object whose leverage is the object
    [lev]: the test on the size, then the row. *)
Lemma position_row_dict labels addr items pos lev :
  py_get_default (PDict items) "position" (PDict []) = Ok (PDict pos) ->
  py_get_default (PDict pos) "leverage" (PDict []) = Ok (PDict lev) ->
  let szi := _safe_float (field pos "szi") in
  position_row labels addr (PDict items) =
  if Float.is_zero szi then Ok None
  else Ok (Some {| Position.label := label_for labels addr;
                   Position.trader := addr;
                   Position.coin := field pos "coin";
                   Position.size := szi;
                   Position.entry_px := _safe_float (field pos "entryPx");
                   Position.position_value := _safe_float (field pos "positionValue");
                   Position.unrealized_pnl := _safe_float (field pos "unrealizedPnl");
                   Position.return_on_equity := _safe_float (field pos "returnOnEquity");
                   Position.liquidation_px := _safe_float (field pos "liquidationPx");
                   Position.margin_used := _safe_float (field pos "marginUsed");
                   Position.leverage_type := field lev "type";
                   Position.leverage_value := _safe_float (field lev "value") |}).
Proof.
  intros Hpos Hlev. unfold position_row. rewrite Hpos. cbn [rbind].
  rewrite !py_get_of_dict. cbn [rbind]. rewrite eqb_zero.
  destruct (Float.is_zero _); [reflexivity|].
  rewrite Hlev. cbn [rbind]. rewrite !py_get_of_dict. reflexivity.
Qed.

Lemma well_shaped_inv (ap : pyval) :
  well_shaped ap = true ->
  exists items pos lev,
    ap = PDict items /\
    py_get_default ap "position" (PDict []) = Ok (PDict pos) /\
    py_get_default (PDict pos) "leverage" (PDict []) = Ok (PDict lev).
Proof.
  destruct ap as [| | | | | |items]; try discriminate. simpl.
  destruct (assoc "position" items) as [[| | | | | |pos]|] eqn:Hp;
    try discriminate.
  - destruct (assoc "leverage" pos) as [lev|] eqn:Hl.
    + intros [lev' ->]%is_dict_inv. exists items, pos, lev'.
      simpl. now rewrite Hl.
    + intros _. exists items, pos, []. simpl. now rewrite Hl.
  - intros _. exists items, [], []. auto.
Qed.

(** The three cases of the size test, on a position of the documented
    shape. *)
Lemma position_row_cases labels addr ap :
  well_shaped ap = true ->
  exists szi, szi_of ap = Ok szi /\
    ((exists r, position_row labels addr ap = Ok (Some r) /\
                Position.size r = szi)
     <-> Float.is_zero szi = false) /\
    (position_row labels addr ap = Ok None <-> Float.is_zero szi = true) /\
    (Float.is_nan szi = true ->
     exists r, position_row labels addr ap = Ok (Some r)).
Proof.
  intros (items & pos & lev & -> & Hpos & Hlev)%well_shaped_inv.
  exists (_safe_float (field pos "szi")). split.
  { unfold szi_of. rewrite Hpos. reflexivity. }
  rewrite (position_row_dict _ _ _ _ _ Hpos Hlev). cbv zeta.
  destruct (_safe_float (field pos "szi")) as [s|s| |s m e]; simpl;
    repeat split; try discriminate; eauto;
    try (intros (r & H & _); discriminate).
Qed.

(** C3, as the code has it: a position of size 1.5 whose [leverage] is
    [null] has a size that is not zero and passes the size test, but
    [pos.get("leverage", {})] returns the [null] that is there, not the
    default, and [.get("type")] on it raises: the position contributes no
    row, and the run stops under the positions heading without a
    positions table. The same position without the [leverage] key gives
    its row. *)
Theorem nonzero_position_without_row :
  let ap := Sample.position_null_leverage in
  let state := PDict [("assetPositions", PList [ap])] in
  let run := script (Sample.serve_both (PList [Sample.fill1]) state)
               (Sample.inputs_of Sample.one_trader) Sample.w0 in
  (exists szi, szi_of ap = Ok szi /\ Float.is_zero szi = false) /\
  position_row ∅ "0x1" ap = Raise no_get /\
  position_rows ∅ "0x1" state = Raise no_get /\
  fst run = Raise no_get /\
  (exists r, page (snd run) = [StDataframeFills [r]]) /\
  (exists r, position_row ∅ "0x1" (Sample.position (PStr "1.5")) = Ok (Some r)).
Proof.
  cbv zeta. split; [|split; [|split; [|split; [|split]]]].
  - eexists. split; vm_compute; reflexivity.
  - vm_compute. reflexivity.
  - vm_compute. reflexivity.
  - vm_compute. reflexivity.
  - eexists. vm_compute. reflexivity.
  - eexists. vm_compute. reflexivity.
Qed.

(** Over asset positions of the documented shape, the sizes of the rows
    are the sizes that are not zero, in the order of the state. *)
Lemma position_rows_sizes labels addr aps :
  forallb well_shaped aps = true ->
  exists sizes rows,
    mapM szi_of aps = Ok sizes /\
    mapM (position_row labels addr) aps = Ok rows /\
    map Position.size (somes rows) =
      List.filter (fun s => negb (Float.is_zero s)) sizes.
Proof.
  induction aps as [|ap aps IH]; simpl.
  - intros _. exists [], []. auto.
  - intros [Hap Haps]%andb_prop.
    destruct (IH Haps) as (sizes & rows & Hs & Hr & E).
    destruct (position_row_cases labels addr ap Hap)
      as (szi & Hszi & Hsome & Hnone & _).
    rewrite Hszi, Hs. cbn [rbind].
    destruct (Float.is_zero szi) eqn:Hz.
    + destruct Hnone as [_ Hn]. rewrite (Hn eq_refl), Hr. cbn [rbind].
      exists (szi :: sizes), (None :: rows). simpl. rewrite Hz. auto.
    + destruct Hsome as [_ Hn]. destruct (Hn eq_refl) as (r & Hrow & Hsz).
      rewrite Hrow, Hr. cbn [rbind].
      exists (szi :: sizes), (Some r :: rows). simpl. rewrite Hz, Hsz, E. auto.
Qed.

(** ** The cap on the fills of one address *)

Lemma firstn_min {A} (n : nat) (l : list A) :
  firstn (Nat.min (length l) n) l = firstn n l.
Proof.
  destruct (Nat.le_ge_cases n (length l)) as [H|H].
  - now rewrite Nat.min_r.
  - rewrite Nat.min_l by exact H. rewrite !firstn_all2; auto.
Qed.

Lemma slice_to_firstn {A} (n : Z) (l : list A) :
  0 <= n ->
  slice_to n l = firstn (Z.to_nat (Z.min (Z.of_nat (length l)) n)) l.
Proof.
  intros H. unfold slice_to.
  destruct (Z.leb_spec 0 n) as [_|]; [|lia].
  rewrite Z2Nat.inj_min, Nat2Z.id. symmetry. apply firstn_min.
Qed.

(** C6. When the fetch for an address returns a list of [M] raw fills, the
    rows of that address are built from the first [min(M, max_fills)]
    entries of the list, one row per entry and in the order of the list:
    the cap is taken on the raw list, before any row exists and so before
    the table is sorted. *)
Theorem fills_capped_before_rows labels max_fills addr raw :
  0 <= max_fills ->
  let kept := firstn (Z.to_nat (Z.min (Z.of_nat (length raw)) max_fills)) raw in
  fill_rows labels max_fills addr (PList raw) =
    mapM (fill_row labels addr) kept /\
  (forall rows, fill_rows labels max_fills addr (PList raw) = Ok rows ->
     Z.of_nat (length rows) = Z.min (Z.of_nat (length raw)) max_fills /\
     Forall2 (fun fill r => fill_row labels addr fill = Ok r) kept rows).
Proof.
  intros H kept.
  assert (E : fill_rows labels max_fills addr (PList raw) =
              mapM (fill_row labels addr) kept).
  { unfold fill_rows, py_or. subst kept. rewrite <- slice_to_firstn by exact H.
    destruct raw; reflexivity. }
  split; [exact E|]. intros rows Hrows. rewrite E in Hrows. split.
  - apply mapM_length in Hrows. rewrite Hrows. subst kept.
    rewrite length_firstn. lia.
  - now apply mapM_Forall2.
Qed.

Lemma fills_capped_before_rows_witness :
  exists rows,
    fill_rows ∅ 10 "0x1" (PList Sample.eleven_fills) = Ok rows /\
    Z.of_nat (length rows) = 10 /\
    map Fill.time (sort_fills rows) =
      map Fill.time (rev rows) /\
    ~ In "1970-01-01T00:00:11+00:00" (map Fill.time (sort_fills rows)).
Proof.
  assert (H : 0 <= 10) by lia.
  destruct (fills_capped_before_rows ∅ 10 "0x1" Sample.eleven_fills H)
    as [E Hlen].
  eexists. split; [rewrite E; vm_compute; reflexivity|].
  split; [|split].
  - reflexivity.
  - vm_compute. reflexivity.
  - vm_compute. intuition discriminate.
Defined.

(** ** The order of the tables *)

Section StableSortProps.
Context {A : Type} (R : relation A) `{forall x y, Decision (R x y)}.

Lemma insert_sorted_Permutation (x : A) (l : list A) :
  insert_sorted R x l ≡ₚ x :: l.
Proof.
  induction l as [|y l IH]; simpl; [reflexivity|].
  destruct (decide (R x y)); [reflexivity|].
  rewrite IH. apply perm_swap.
Qed.

Lemma stable_sort_Permutation (l : list A) : stable_sort R l ≡ₚ l.
Proof.
  induction l as [|x l IH]; simpl; [reflexivity|].
  now rewrite insert_sorted_Permutation, IH.
Qed.

Lemma insert_sorted_HdRel (x y : A) (l : list A) :
  R y x -> HdRel R y l -> HdRel R y (insert_sorted R x l).
Proof.
  intros Hyx Hl. destruct l as [|z l]; simpl.
  - now constructor.
  - destruct (decide (R x z)); constructor; [exact Hyx|].
    now inversion Hl.
Qed.

Lemma insert_sorted_Sorted `{!Total R} (x : A) (l : list A) :
  Sorted R l -> Sorted R (insert_sorted R x l).
Proof.
  induction 1 as [|y l Hs IH Hd]; simpl.
  - repeat constructor.
  - destruct (decide (R x y)) as [Hxy|Hxy].
    + repeat constructor; assumption.
    + constructor; [exact IH|]. apply insert_sorted_HdRel; [|exact Hd].
      destruct (total R x y); [contradiction | assumption].
Qed.

Lemma Sorted_stable_sort `{!Total R} (l : list A) : Sorted R (stable_sort R l).
Proof.
  induction l as [|x l IH]; simpl; [constructor|].
  now apply insert_sorted_Sorted.
Qed.

Lemma StronglySorted_stable_sort `{!Total R, !Transitive R} (l : list A) :
  StronglySorted R (stable_sort R l).
Proof. apply Sorted_StronglySorted; [assumption | apply Sorted_stable_sort]. Qed.

(** The sort is stable: rows that may come in either order, such as the
    rows of one key, come out in the order they had. *)
Lemma insert_sorted_filter (P : A -> bool) (x : A) (l : list A) :
  (forall y, P x = true -> P y = true -> R x y) ->
  List.filter P (insert_sorted R x l) = List.filter P (x :: l).
Proof.
  intros HP. induction l as [|y l IH]; [reflexivity|].
  cbn [insert_sorted]. destruct (decide (R x y)) as [Hxy|Hxy]; [reflexivity|].
  cbn [List.filter] in *. rewrite IH.
  destruct (P x) eqn:Px, (P y) eqn:Py; try reflexivity.
  contradiction Hxy. now apply HP.
Qed.

Lemma stable_sort_filter (P : A -> bool) (l : list A) :
  (forall x y, P x = true -> P y = true -> R x y) ->
  List.filter P (stable_sort R l) = List.filter P l.
Proof.
  intros HP. induction l as [|x l IH]; [reflexivity|].
  cbn [stable_sort]. rewrite insert_sorted_filter by (intros y; apply HP).
  cbn [List.filter]. now rewrite IH.
Qed.

End StableSortProps.

Lemma sort_fills_Permutation (rows : list Fill.row) : sort_fills rows ≡ₚ rows.
Proof. apply stable_sort_Permutation. Qed.

Lemma sort_positions_Permutation (rows : list Position.row) :
  sort_positions rows ≡ₚ rows.
Proof. apply stable_sort_Permutation. Qed.


#[export] Instance time_ge_total : Total Fill.time_ge.
Proof. intros r1 r2. unfold Fill.time_ge. destruct (total String.le (Fill.time r2) (Fill.time r1)); auto. Qed.

#[export] Instance time_ge_trans : Transitive Fill.time_ge.
Proof. intros r1 r2 r3 H12 H23. unfold Fill.time_ge in *. now transitivity (Fill.time r2). Qed.

Lemma string_leb_trans (a b c : string) :
  String.leb a b = true -> String.leb b c = true -> String.leb a c = true.
Proof.
  intros H1 H2. apply Is_true_true. apply Is_true_true in H1, H2.
  change (String.le a c). now transitivity b.
Qed.

Lemma num_leb_total (a b : Z * N) : Position.num_leb a b = true \/ Position.num_leb b a = true.
Proof.
  unfold Position.num_leb.
  destruct (Z.leb_spec (fst a * 2 ^ Z.of_N (snd b)) (fst b * 2 ^ Z.of_N (snd a)));
    [now left|].
  right. apply Z.leb_le. lia.
Qed.

Lemma num_leb_trans (a b c : Z * N) :
  Position.num_leb a b = true -> Position.num_leb b c = true -> Position.num_leb a c = true.
Proof.
  unfold Position.num_leb. rewrite !Z.leb_le.
  assert (Ha : 0 < 2 ^ Z.of_N (snd a)) by (apply Z.pow_pos_nonneg; lia).
  assert (Hb : 0 < 2 ^ Z.of_N (snd b)) by (apply Z.pow_pos_nonneg; lia).
  assert (Hc : 0 < 2 ^ Z.of_N (snd c)) by (apply Z.pow_pos_nonneg; lia).
  revert Ha Hb Hc.
  generalize (2 ^ Z.of_N (snd a)) (2 ^ Z.of_N (snd b)) (2 ^ Z.of_N (snd c)).
  intros P Q R HP HQ HR H1 H2.
  apply (Z.mul_le_mono_pos_r _ _ Q HQ).
  transitivity (fst b * P * R).
  - replace (fst a * R * Q) with (fst a * Q * R) by ring.
    apply Z.mul_le_mono_pos_r; assumption.
  - replace (fst b * P * R) with (fst b * R * P) by ring.
    replace (fst c * P * Q) with (fst c * Q * P) by ring.
    apply Z.mul_le_mono_pos_r; assumption.
Qed.

Lemma coin_num_other (c : pyval) :
  Position.coin_rank c <> 1 -> Position.coin_num c = (0, 0%N).
Proof. destruct c as [| | |[]| | |]; simpl; congruence. Qed.

Lemma coin_str_other (c : pyval) :
  Position.coin_rank c <> 3 -> Position.coin_str c = "".
Proof. destruct c; simpl; congruence. Qed.

Lemma coin_leb_spec (c1 c2 : pyval) :
  Position.coin_leb c1 c2 = true <->
  Position.coin_rank c1 < Position.coin_rank c2 \/
  (Position.coin_rank c1 = Position.coin_rank c2 /\
   Position.num_leb (Position.coin_num c1) (Position.coin_num c2) = true /\
   String.leb (Position.coin_str c1) (Position.coin_str c2) = true).
Proof.
  unfold Position.coin_leb.
  destruct (Z.compare_spec (Position.coin_rank c1) (Position.coin_rank c2)).
  - rewrite andb_true_iff. intuition lia.
  - intuition lia.
  - intuition (try discriminate; lia).
Qed.

Lemma coin_leb_total (c1 c2 : pyval) :
  Position.coin_leb c1 c2 = true \/ Position.coin_leb c2 c1 = true.
Proof.
  rewrite !coin_leb_spec.
  destruct (Z.lt_total (Position.coin_rank c1) (Position.coin_rank c2))
    as [Hlt|[Heq|Hgt]]; [left; left; exact Hlt | | right; left; lia].
  destruct (Z.eq_dec (Position.coin_rank c1) 1) as [E1|N1].
  - rewrite !(coin_str_other c1), !(coin_str_other c2) by lia.
    destruct (num_leb_total (Position.coin_num c1) (Position.coin_num c2));
      [left | right]; right; repeat split; auto.
  - rewrite !(coin_num_other c1), !(coin_num_other c2) by lia.
    destruct (String.leb_total (Position.coin_str c1) (Position.coin_str c2));
      [left | right]; right; repeat split; auto.
Qed.

Lemma coin_leb_trans (c1 c2 c3 : pyval) :
  Position.coin_leb c1 c2 = true -> Position.coin_leb c2 c3 = true ->
  Position.coin_leb c1 c3 = true.
Proof.
  rewrite !coin_leb_spec.
  intros [H12|(E12 & N12 & S12)] [H23|(E23 & N23 & S23)];
    [left; lia | left; lia | left; lia |].
  right. split; [lia|]. split.
  - eapply num_leb_trans; eauto.
  - eapply string_leb_trans; eauto.
Qed.

#[export] Instance key_le_total : Total Position.key_le.
Proof.
  intros r1 r2. unfold Position.key_le, Position.key_leb.
  rewrite (String.eqb_sym (Position.trader r2)).
  destruct (String.eqb _ _).
  - destruct (coin_leb_total (Position.coin r1) (Position.coin r2)) as [->| ->];
      simpl; auto.
  - destruct (String.leb_total (Position.trader r1) (Position.trader r2))
      as [->| ->]; simpl; auto.
Qed.

#[export] Instance key_le_trans : Transitive Position.key_le.
Proof.
  intros r1 r2 r3. unfold Position.key_le, Position.key_leb.
  intros H12%Is_true_true H23%Is_true_true. apply Is_true_true.
  destruct (String.eqb_spec (Position.trader r1) (Position.trader r2)) as [E12|N12];
    destruct (String.eqb_spec (Position.trader r2) (Position.trader r3)) as [E23|N23];
    destruct (String.eqb_spec (Position.trader r1) (Position.trader r3)) as [E13|N13];
    try congruence.
  - eapply coin_leb_trans; eauto.
  - exfalso. apply N12. rewrite E13 in *.
    now apply String.leb_antisym.
  - eapply string_leb_trans; eauto.
Qed.

Lemma empty_least (s : string) : String.le s "" -> s = "".
Proof. destruct s; [reflexivity|]. intros H. destruct H. Qed.

(** In a table sorted by descending time, nothing but empty times follows
    an empty time. *)
Lemma empty_times_last (t l1 l2 : list Fill.row) (r : Fill.row) :
  StronglySorted Fill.time_ge t ->
  t = (l1 ++ r :: l2)%list -> Fill.time r = "" ->
  Forall (fun r' => Fill.time r' = "") l2.
Proof.
  intros Hs -> Hr. apply StronglySorted_app_1_r in Hs.
  apply StronglySorted_cons in Hs as [Hall _].
  eapply Forall_impl; [exact Hall|]. intros r' H. unfold Fill.time_ge in H.
  rewrite Hr in H. now apply empty_least.
Qed.

(** ** The world under the fetches and the page *)

Lemma set_page_set_page p q w : set_page p (set_page q w) = set_page p w.
Proof. reflexivity. Qed.

Lemma set_page_id w : set_page (page w) w = w.
Proof. now destruct w. Qed.

Lemma page_set_page p w : page (set_page p w) = p.
Proof. reflexivity. Qed.

Lemma page_blind_page {A} (c : M A) w :
  page_blind c -> page (snd (c w)) = page w.
Proof.
  intros H. specialize (H (page w) w). rewrite set_page_id in H.
  rewrite H at 1. reflexivity.
Qed.

Lemma public_info_blind upstream payload : page_blind (_public_info upstream payload).
Proof. intros p w. reflexivity. Qed.

Lemma get_or_compute_blind key c : page_blind c -> page_blind (get_or_compute key c).
Proof.
  intros Hc p w. unfold get_or_compute.
  change (cache_hit key (set_page p w)) with (cache_hit key w).
  destruct (cache_hit key w); [reflexivity|].
  rewrite Hc. destruct (c w) as [[v|e] w']; reflexivity.
Qed.

Lemma fetch_recent_fills_blind upstream a s e g :
  page_blind (fetch_recent_fills upstream a s e g).
Proof. apply get_or_compute_blind, public_info_blind. Qed.

Lemma fetch_positions_single_blind upstream a :
  page_blind (fetch_positions_single upstream a).
Proof. apply get_or_compute_blind, public_info_blind. Qed.

Lemma fetch_all_blind fetch addresses p w :
  (forall a, page_blind (fetch a)) ->
  fetch_all fetch addresses (set_page p w) =
  (fst (fetch_all fetch addresses w), set_page p (snd (fetch_all fetch addresses w))).
Proof.
  intros Hf. revert w. induction addresses as [|a rest IH]; intros w; simpl.
  - reflexivity.
  - rewrite Hf. destruct (fetch a w) as [r w1]. simpl.
    rewrite IH. destruct (fetch_all fetch rest w1) as [outs w2]. reflexivity.
Qed.


Lemma fetch_all_addresses fetch addresses w :
  map fst (fst (fetch_all fetch addresses w)) = addresses.
Proof.
  revert w. induction addresses as [|a rest IH]; intros w; simpl.
  - reflexivity.
  - destruct (fetch a w) as [r w1]. specialize (IH w1).
    destruct (fetch_all fetch rest w1) as [outs w2]. simpl in *. now rewrite IH.
Qed.


Lemma succeeded_incl outs a v :
  In (a, v) (succeeded outs) -> In (a, Ok v) outs.
Proof.
  induction outs as [|[a' [v'|e']] outs IH]; simpl; intros H;
    try tauto; try (destruct H as [H|H]; [left; congruence|]); auto.
Qed.

Lemma failed_incl outs a e :
  In (a, e) (failed outs) -> In (a, Raise e) outs.
Proof.
  induction outs as [|[a' [v'|e']] outs IH]; simpl; intros H;
    try tauto; try (destruct H as [H|H]; [left; congruence|]); auto.
Qed.

(** ** The two loops over the watch-list *)

Section Loop.

Context {R : Type}.
Variable fetch : string -> M pyval.
Variable failure : string * exn -> element.
Variable rows_of : string -> pyval -> result (list R).
Variable loop : list string -> list R -> M (list R).

Hypothesis loop_nil : forall acc, loop [] acc = ret acc.
Hypothesis loop_cons : forall addr rest acc,
  loop (addr :: rest) acc =
  let! r := try_except (fetch addr) in
  match r with
  | Raise exc => let! _ := write (failure (addr, exc)) in loop rest acc
  | Ok v => let! rows := lift (rows_of addr v) in loop rest (acc ++ rows)
  end.
Hypothesis fetch_blind : forall a, page_blind (fetch a).

(** When the rows of every fetched payload can be built, the loop ends
    with the rows of the addresses that succeeded, in the order of the
    watch-list, and has written one failure per address that failed. *)
Lemma loop_completes addresses acc w rowss :
  let outs := fst (fetch_all fetch addresses w) in
  mapM (fun o => rows_of (fst o) (snd o)) (succeeded outs) = Ok rowss ->
  loop addresses acc w =
  (Ok (acc ++ concat rowss),
   set_page (page w ++ map failure (failed outs))
     (snd (fetch_all fetch addresses w))).
Proof.
  revert acc w rowss. induction addresses as [|a rest IH]; intros acc w rowss.
  - simpl. intros [= <-]. rewrite loop_nil. unfold ret. simpl.
    now rewrite !app_nil_r, set_page_id.
  - cbv zeta. simpl fetch_all. rewrite loop_cons. unfold bind, try_except.
    pose proof (page_blind_page (fetch a) w (fetch_blind a)) as Hpage.
    destruct (fetch a w) as [[v|e] w1] eqn:Hf; simpl in Hpage.
    + specialize (IH (acc ++ match rows_of a v with Ok r => r | _ => [] end) w1).
      destruct (fetch_all fetch rest w1) as [outs w2] eqn:Hrest.
      simpl. intros H.
      apply rbind_ok in H as (rows & Hrows & H).
      apply rbind_ok in H as (rowss' & Hrowss & H). injection H as <-.
      unfold lift. rewrite Hrows in *. simpl in IH.
      rewrite (IH rowss' Hrowss). simpl.
      now rewrite Hpage, <- app_assoc.
    + specialize (IH acc (set_page (page w1 ++ [failure (a, e)]) w1)).
      rewrite fetch_all_blind in IH by exact fetch_blind.
      destruct (fetch_all fetch rest w1) as [outs w2] eqn:Hrest.
      simpl. intros H. unfold write. simpl in IH.
      rewrite (IH rowss H). rewrite Hpage.
      now rewrite <- app_assoc.
Qed.

(** Whatever the payloads, the loop writes nothing but failures. *)
Lemma loop_writes_failures addresses acc w :
  exists errs, page (snd (loop addresses acc w)) = page w ++ map failure errs.
Proof.
  revert acc w. induction addresses as [|a rest IH]; intros acc w.
  - rewrite loop_nil. exists []. simpl. now rewrite app_nil_r.
  - rewrite loop_cons. unfold bind, try_except.
    pose proof (page_blind_page (fetch a) w (fetch_blind a)) as Hpage.
    destruct (fetch a w) as [[v|e] w1] eqn:Hf; simpl in Hpage.
    + unfold lift. destruct (rows_of a v) as [rows|e].
      * destruct (IH (acc ++ rows) w1) as [errs H]. exists errs.
        now rewrite H, Hpage.
      * exists []. simpl. now rewrite app_nil_r.
    + unfold write.
      destruct (IH acc (set_page (page w1 ++ [failure (a, e)]) w1)) as [errs H].
      exists ((a, e) :: errs). rewrite H. simpl.
      now rewrite Hpage, <- app_assoc.
Qed.

End Loop.

Lemma fills_loop_completes upstream inp labels addresses w rowss :
  let fetch a := fetch_recent_fills upstream a (start_ms inp) (end_ms inp)
                   (aggregate_by_time inp) in
  let outs := fst (fetch_all fetch addresses w) in
  mapM (fun o => fill_rows labels (max_fills inp) (fst o) (snd o))
    (succeeded outs) = Ok rowss ->
  fills_loop upstream inp labels addresses [] w =
  (Ok (concat rowss),
   set_page (page w ++ map fills_failure (failed outs))
     (snd (fetch_all fetch addresses w))).
Proof.
  intros fetch outs H. change (concat rowss) with ([] ++ concat rowss).
  apply (loop_completes fetch fills_failure
           (fill_rows labels (max_fills inp))
           (fills_loop upstream inp labels)).
  - reflexivity.
  - reflexivity.
  - intros a. apply fetch_recent_fills_blind.
  - exact H.
Qed.

Lemma positions_loop_completes upstream labels addresses w rowss :
  let outs := fst (fetch_all (fetch_positions_single upstream) addresses w) in
  mapM (fun o => position_rows labels (fst o) (snd o)) (succeeded outs)
    = Ok rowss ->
  positions_loop upstream labels addresses [] w =
  (Ok (concat rowss),
   set_page (page w ++ map positions_failure (failed outs))
     (snd (fetch_all (fetch_positions_single upstream) addresses w))).
Proof.
  intros outs H. change (concat rowss) with ([] ++ concat rowss).
  apply (loop_completes (fetch_positions_single upstream) positions_failure
           (position_rows labels) (positions_loop upstream labels)).
  - reflexivity.
  - reflexivity.
  - intros a. apply fetch_positions_single_blind.
  - exact H.
Qed.

(** ** The tables on the page *)

Lemma sort_fills_in_order (rows : list Fill.row) :
  in_order (StDataframeFills (sort_fills rows)).
Proof.
  assert (Hs : StronglySorted Fill.time_ge (sort_fills rows))
    by (apply StronglySorted_stable_sort; apply _).
  split; [exact Hs|]. intros l1 r l2. now apply empty_times_last.
Qed.

Lemma sort_positions_in_order (rows : list Position.row) :
  in_order (StDataframePositions (sort_positions rows)).
Proof. apply StronglySorted_stable_sort; apply _. Qed.

Lemma writes_in_order_ret {A} (a : A) : writes_in_order (ret a).
Proof. intros w. exists []. simpl. now rewrite app_nil_r. Qed.

Lemma writes_in_order_lift {A} (r : result A) : writes_in_order (lift r).
Proof. intros w. exists []. simpl. now rewrite app_nil_r. Qed.

Lemma writes_in_order_write (e : element) : in_order e -> writes_in_order (write e).
Proof. intros He w. exists [e]. simpl. auto. Qed.

Lemma writes_in_order_bind {A B} (c : M A) (k : A -> M B) :
  writes_in_order c -> (forall a, writes_in_order (k a)) ->
  writes_in_order (bind c k).
Proof.
  intros Hc Hk w. unfold bind. destruct (Hc w) as (new1 & E1 & F1).
  destruct (c w) as [[a|e] w1]; simpl in E1.
  - destruct (Hk a w1) as (new2 & E2 & F2). exists (new1 ++ new2).
    rewrite E2, E1, app_assoc. split; [reflexivity | now apply Forall_app].
  - exists new1. auto.
Qed.

Lemma writes_in_order_fetch {A} (c : M pyval) (k : result pyval -> M A) :
  page_blind c -> (forall r, writes_in_order (k r)) ->
  writes_in_order (bind (try_except c) k).
Proof.
  intros Hc Hk. apply writes_in_order_bind; [|exact Hk].
  intros w. exists []. unfold try_except.
  pose proof (page_blind_page c w Hc) as Hp.
  destruct (c w) as [r w1]. simpl in *. now rewrite app_nil_r.
Qed.

Lemma writes_in_order_cache_clear : writes_in_order cache_clear.
Proof. intros w. exists []. simpl. now rewrite app_nil_r. Qed.

Create HintDb page.

#[export] Hint Resolve writes_in_order_ret writes_in_order_lift
  writes_in_order_write writes_in_order_cache_clear
  sort_fills_in_order sort_positions_in_order
  fetch_recent_fills_blind fetch_positions_single_blind : page.

Lemma fills_loop_in_order upstream inp labels addresses acc :
  writes_in_order (fills_loop upstream inp labels addresses acc).
Proof.
  revert acc. induction addresses as [|a rest IH]; intros acc; simpl.
  - auto with page.
  - apply writes_in_order_fetch; [auto with page|]. intros [v|e].
    + apply writes_in_order_bind; auto with page.
    + apply writes_in_order_bind; [|auto]. apply writes_in_order_write. exact I.
Qed.

Lemma positions_loop_in_order upstream labels addresses acc :
  writes_in_order (positions_loop upstream labels addresses acc).
Proof.
  revert acc. induction addresses as [|a rest IH]; intros acc; simpl.
  - auto with page.
  - apply writes_in_order_fetch; [auto with page|]. intros [v|e].
    + apply writes_in_order_bind; auto with page.
    + apply writes_in_order_bind; [|auto]. apply writes_in_order_write. exact I.
Qed.

Lemma script_in_order upstream inp : writes_in_order (script upstream inp).
Proof.
  unfold script. apply writes_in_order_bind.
  { destruct (refresh inp); auto with page. }
  intros _. destruct (map address _) as [|a rest].
  { apply writes_in_order_write. exact I. }
  apply writes_in_order_bind.
  - unfold fills_section. apply writes_in_order_bind.
    + apply fills_loop_in_order.
    + intros [|r rows]; apply writes_in_order_write; auto with page. exact I.
  - intros _. unfold positions_section. apply writes_in_order_bind.
    + apply positions_loop_in_order.
    + intros [|r rows]; apply writes_in_order_write; auto with page. exact I.
Qed.

(** ** Whose rows a table holds *)

Ltac unbind H :=
  repeat (let x := fresh "x" in apply rbind_ok in H as (x & _ & H)).


Lemma position_row_owner labels addr ap r :
  position_row labels addr ap = Ok (Some r) ->
  Position.trader r = addr /\ Position.label r = label_for labels addr.
Proof.
  intros H. unfold position_row in H.
  apply rbind_ok in H as (pos & _ & H). apply rbind_ok in H as (szi & _ & H).
  destruct (Float.eqb _ _); [discriminate|].
  unbind H. injection H as <-. auto.
Qed.


Lemma position_rows_owner labels addr state rows :
  position_rows labels addr state = Ok rows ->
  Forall (fun r => Position.trader r = addr /\
                   Position.label r = label_for labels addr) rows.
Proof.
  intros H. unfold position_rows in H.
  apply rbind_ok in H as (aps & _ & H). apply rbind_ok in H as (items & _ & H).
  apply rbind_ok in H as (opts & H & E). injection E as <-.
  apply mapM_Forall2 in H. induction H as [|ap o items opts Ho _ IH]; simpl.
  - constructor.
  - destruct o as [r|]; simpl; [|exact IH].
    constructor; [eapply position_row_owner; eauto | exact IH].
Qed.


(** ** The two sections of the script *)

Lemma fills_section_completes upstream inp labels addresses w rowss :
  let fetch a := fetch_recent_fills upstream a (start_ms inp) (end_ms inp)
                   (aggregate_by_time inp) in
  let outs := fst (fetch_all fetch addresses w) in
  mapM (fun o => fill_rows labels (max_fills inp) (fst o) (snd o))
    (succeeded outs) = Ok rowss ->
  fills_section upstream inp labels addresses w =
  (Ok tt,
   set_page (page w ++ map fills_failure (failed outs)
               ++ [fills_outcome inp (concat rowss)])
     (snd (fetch_all fetch addresses w))).
Proof.
  intros fetch outs H. unfold fills_section, bind.
  rewrite (fills_loop_completes _ _ _ _ _ _ H). fold fetch. fold outs.
  unfold fills_outcome.
  destruct (concat rowss); unfold st_info, write; simpl;
    now rewrite <- app_assoc.
Qed.

Lemma positions_section_completes upstream labels addresses w rowss :
  let outs := fst (fetch_all (fetch_positions_single upstream) addresses w) in
  mapM (fun o => position_rows labels (fst o) (snd o)) (succeeded outs)
    = Ok rowss ->
  positions_section upstream labels addresses w =
  (Ok tt,
   set_page (page w ++ map positions_failure (failed outs)
               ++ [positions_outcome (concat rowss)])
     (snd (fetch_all (fetch_positions_single upstream) addresses w))).
Proof.
  intros outs H. unfold positions_section, bind.
  rewrite (positions_loop_completes _ _ _ _ _ H). fold outs.
  unfold positions_outcome.
  destruct (concat rowss); unfold st_info, write; simpl;
    now rewrite <- app_assoc.
Qed.

(** A run whose fetched payloads all give rows, from the parsing of the
    watch-list to the two tables. *)
Lemma script_run upstream inp w frowss prowss :
  let entries := _parse_entries (wallet_entries inp) in
  let addresses := map address entries in
  let labels := labels_of entries in
  let start := if refresh inp then set_cache ∅ w else w in
  let fills :=
    fetch_all (fun a => fetch_recent_fills upstream a (start_ms inp)
                          (end_ms inp) (aggregate_by_time inp))
      addresses start in
  let positions :=
    fetch_all (fetch_positions_single upstream) addresses (snd fills) in
  addresses <> [] ->
  mapM (fun o => fill_rows labels (max_fills inp) (fst o) (snd o))
    (succeeded (fst fills)) = Ok frowss ->
  mapM (fun o => position_rows labels (fst o) (snd o))
    (succeeded (fst positions)) = Ok prowss ->
  script upstream inp w =
    (Ok tt,
     set_page (page w
                 ++ map fills_failure (failed (fst fills))
                 ++ [fills_outcome inp (concat frowss)]
                 ++ map positions_failure (failed (fst positions))
                 ++ [positions_outcome (concat prowss)])
       (snd positions)).
Proof.
  intros entries addresses labels start fills positions Hne Hf Hp.
  unfold script. fold entries. fold addresses. fold labels.
  assert (Hstart : (let! _ := if refresh inp then cache_clear else ret tt in
                    match addresses with
                    | [] => st_warning
                        "Add at least one trader address in the sidebar to load data."
                    | _ => let! _ := fills_section upstream inp labels addresses in
                           positions_section upstream labels addresses
                    end) w
                   = (let! _ := fills_section upstream inp labels addresses in
                      positions_section upstream labels addresses) start).
  { unfold bind, start. destruct addresses; [congruence|].
    destruct (refresh inp); reflexivity. }
  rewrite Hstart. unfold bind.
  rewrite (fills_section_completes _ _ _ _ _ _ Hf).
  assert (Hpage : page start = page w)
    by (unfold start; destruct (refresh inp); reflexivity).
  erewrite positions_section_completes.
  - rewrite fetch_all_blind by apply fetch_positions_single_blind.
    simpl. fold fills. fold positions. rewrite Hpage.
    now rewrite <- !app_assoc.
  - rewrite fetch_all_blind by apply fetch_positions_single_blind.
    exact Hp.
Qed.

(** ** Isolation of the fetch failures *)



(** ** The tables that are shown *)

(** C4. Take a run that completes: the watch-list is not empty and the
    rows of every fetched payload can be built, with coins pandas can
    order. After all the addresses are processed, what the run shows
    under the fills heading is, when there are rows, one table holding
    exactly the collected rows, rearranged in descending order of the time
    column compared as strings, so that the rows without a time, whose
    time is the empty string, come after all the others; and under the
    positions heading one table holding exactly the collected rows in
    ascending order of (trader, coin). Besides, whatever the exchange
    answers, every table a run adds to the page is in that order. *)
Theorem tables_sorted upstream inp w frowss prowss :
  let entries := _parse_entries (wallet_entries inp) in
  let addresses := map address entries in
  let labels := labels_of entries in
  let start := if refresh inp then set_cache ∅ w else w in
  let fills :=
    fetch_all (fun a => fetch_recent_fills upstream a (start_ms inp)
                          (end_ms inp) (aggregate_by_time inp))
      addresses start in
  let positions :=
    fetch_all (fetch_positions_single upstream) addresses (snd fills) in
  addresses <> [] ->
  mapM (fun o => fill_rows labels (max_fills inp) (fst o) (snd o))
    (succeeded (fst fills)) = Ok frowss ->
  mapM (fun o => position_rows labels (fst o) (snd o))
    (succeeded (fst positions)) = Ok prowss ->
  Forall (fun r => Position.orderable (Position.coin r) = true)
    (concat prowss) ->
  (exists shown_fills shown_positions,
     page (snd (script upstream inp w)) =
       page w
         ++ map fills_failure (failed (fst fills)) ++ [shown_fills]
         ++ map positions_failure (failed (fst positions))
         ++ [shown_positions] /\
     (concat frowss <> [] ->
      exists t, shown_fills = StDataframeFills t /\
        t ≡ₚ concat frowss /\
        StronglySorted Fill.time_ge t /\
        (forall l1 r l2, t = l1 ++ r :: l2 -> Fill.time r = "" ->
                         Forall (fun r' => Fill.time r' = "") l2)) /\
     (concat prowss <> [] ->
      exists t, shown_positions = StDataframePositions t /\
        t ≡ₚ concat prowss /\
        StronglySorted Position.key_le t)) /\
  (exists new, page (snd (script upstream inp w)) = page w ++ new /\
               Forall in_order new).
Proof.
  intros entries addresses labels start fills positions Hne Hf Hp _.
  split; [|apply script_in_order].
  exists (fills_outcome inp (concat frowss)), (positions_outcome (concat prowss)).
  split; [|split].
  - unfold fills, positions, start, labels, addresses, entries in *.
    rewrite (script_run upstream inp w frowss prowss Hne Hf Hp).
    reflexivity.
  - intros Hrows. exists (sort_fills (concat frowss)). split.
    + unfold fills_outcome. destruct (concat frowss); [congruence | reflexivity].
    + split; [apply sort_fills_Permutation | apply sort_fills_in_order].
  - intros Hrows. exists (sort_positions (concat prowss)). split.
    + unfold positions_outcome.
      destruct (concat prowss); [congruence | reflexivity].
    + split; [apply sort_positions_Permutation | apply sort_positions_in_order].
Qed.

Lemma tables_sorted_witness :
  let fills := PList [Sample.fill_at 1000; Sample.fill_undated;
                      Sample.fill_at 2000] in
  let state :=
    PDict [("assetPositions",
            PList [Sample.position_in (PStr "ETH"); Sample.position_in PNone;
                   Sample.position_in (PStr "BTC");
                   Sample.position_in (PInt 7)])] in
  let run := script (Sample.serve_both fills state)
               (Sample.inputs_of Sample.two_traders) Sample.w0 in
  exists t1 t2,
    page (snd run) = [StDataframeFills t1; StDataframePositions t2] /\
    map Fill.time t1 =
      ["1970-01-01T00:00:02+00:00"; "1970-01-01T00:00:02+00:00";
       "1970-01-01T00:00:01+00:00"; "1970-01-01T00:00:01+00:00"; ""; ""] /\
    map (fun r => (Position.trader r, Position.coin r)) t2 =
      [("0x1", PInt 7); ("0x1", PStr "BTC"); ("0x1", PStr "ETH"); ("0x1", PNone);
       ("0x2", PInt 7); ("0x2", PStr "BTC"); ("0x2", PStr "ETH"); ("0x2", PNone)].
Proof.
  intros fills0 state run.
  set (up := Sample.serve_both fills0 state).
  set (inp := Sample.inputs_of Sample.two_traders).
  set (labels := labels_of (_parse_entries (wallet_entries inp))).
  set (addresses := map address (_parse_entries (wallet_entries inp))).
  set (fills := fetch_all (fun a => fetch_recent_fills up a
                                      (start_ms inp) (end_ms inp)
                                      (aggregate_by_time inp))
                  addresses Sample.w0).
  set (positions := fetch_all (fetch_positions_single up) addresses (snd fills)).
  destruct (mapM (fun o => fill_rows labels (max_fills inp) (fst o) (snd o))
              (succeeded (fst fills))) as [frowss|e] eqn:Ef;
    [|vm_compute in Ef; discriminate].
  destruct (mapM (fun o => position_rows labels (fst o) (snd o))
              (succeeded (fst positions))) as [prowss|e] eqn:Ep;
    [|vm_compute in Ep; discriminate].
  assert (Hne : addresses <> []) by (vm_compute; discriminate).
  assert (Hord : Forall (fun r => Position.orderable (Position.coin r) = true)
                   (concat prowss)).
  { vm_compute in Ep. injection Ep as <-. repeat constructor. }
  destruct (tables_sorted up inp Sample.w0 frowss prowss Hne Ef Ep Hord)
    as ((sf & sp & Hpage & Hfills & Hpos) & _).
  vm_compute in Ef. injection Ef as <-.
  vm_compute in Ep. injection Ep as <-.
  destruct Hfills as (t1 & -> & _); [discriminate|].
  destruct Hpos as (t2 & -> & _); [discriminate|].
  exists t1, t2. subst run. fold up. fold inp.
  split; [exact Hpage|].
  vm_compute in Hpage. injection Hpage as <- <-.
  split; reflexivity.
Defined.

(** ** Labels of duplicated addresses *)

Lemma labels_fold_lookup (entries : list entry) (m : gmap string string)
  (addr : string) :
  fold_left (fun m e => <[address e := label e]> m) entries m !! addr =
  match last (List.filter (fun e => String.eqb (address e) addr) entries) with
  | Some e => Some (label e)
  | None => m !! addr
  end.
Proof.
  revert m. induction entries as [|e rest IH]; intros m; simpl.
  - reflexivity.
  - rewrite IH. destruct (String.eqb_spec (address e) addr) as [E|N].
    + rewrite last_cons.
      destruct (last (List.filter _ rest)); [reflexivity|].
      rewrite E. now rewrite lookup_insert_eq.
    + destruct (last (List.filter _ rest)); [reflexivity|].
      now rewrite lookup_insert_ne.
Qed.






(** ** The cache in front of the exchange *)

Section Cache.

Variable upstream : nat -> request -> result pyval.
Variable key : cache_key.
Variable payload : request.

Let fetch : M pyval := get_or_compute key (_public_info upstream payload).




End Cache.



(* ===================================================================== *)
(** * Further properties                                                  *)
(* ===================================================================== *)

(** ** Stripping *)

Lemma lstrip_no_lead (l : list ascii) : no_lead (Text.lstrip l).
Proof.
  induction l as [|c l IH]; simpl; [exact I|].
  destruct (Text.is_space c) eqn:E; [exact IH | exact E].
Qed.

Lemma lstrip_fix (l : list ascii) : no_lead l -> Text.lstrip l = l.
Proof. destruct l as [|c l]; simpl; [reflexivity|]. now intros ->. Qed.

Lemma lstrip_split (l : list ascii) :
  exists sp, l = sp ++ Text.lstrip l /\ Forall (fun c => Text.is_space c = true) sp.
Proof.
  induction l as [|c l (sp & E & F)]; simpl.
  - exists []. auto.
  - destruct (Text.is_space c) eqn:Hc.
    + exists (c :: sp). split; [simpl; congruence | constructor; auto].
    + exists []. auto.
Qed.

Lemma lstrip_spaces (sp l : list ascii) :
  Forall (fun c => Text.is_space c = true) sp ->
  Text.lstrip (sp ++ l) = Text.lstrip l.
Proof. induction 1 as [|c sp Hc _ IH]; simpl; [reflexivity|]. now rewrite Hc. Qed.

Lemma no_lead_prefix (a b : list ascii) :
  no_lead (a ++ b) -> a <> [] -> no_lead a.
Proof. destruct a; [congruence | auto]. Qed.

(** A stripped text starts and ends with a character that is not a
    space. *)
Lemma strip_chars_ends (l : list ascii) :
  no_lead (Text.strip_chars l) /\ no_lead (rev (Text.strip_chars l)).
Proof.
  unfold Text.strip_chars. rewrite rev_involutive.
  split; [|apply lstrip_no_lead].
  destruct (lstrip_split (rev (Text.lstrip l))) as (sp & E & _).
  pose proof (lstrip_no_lead l) as Hl.
  apply (f_equal (@rev ascii)) in E. rewrite rev_involutive, rev_app_distr in E.
  destruct (rev (Text.lstrip (rev (Text.lstrip l)))) as [|c r] eqn:Er;
    [exact I|].
  rewrite E in Hl. exact Hl.
Qed.

Lemma strip_chars_fix (l : list ascii) :
  no_lead l -> no_lead (rev l) -> Text.strip_chars l = l.
Proof.
  intros H1 H2. unfold Text.strip_chars.
  now rewrite (lstrip_fix l H1), (lstrip_fix _ H2), rev_involutive.
Qed.

Lemma strip_chars_idem (l : list ascii) :
  Text.strip_chars (Text.strip_chars l) = Text.strip_chars l.
Proof. apply strip_chars_fix; apply strip_chars_ends. Qed.

(** Spaces around a text do not change what it strips to. *)
Lemma strip_chars_spaces (pre l post : list ascii) :
  Forall (fun c => Text.is_space c = true) pre ->
  Forall (fun c => Text.is_space c = true) post ->
  Text.strip_chars (pre ++ l ++ post) = Text.strip_chars l.
Proof.
  intros Hpre Hpost. unfold Text.strip_chars. rewrite (lstrip_spaces _ _ Hpre).
  f_equal.
  assert (H : forall m, Text.lstrip (rev (Text.lstrip (m ++ post)))
                        = Text.lstrip (rev (Text.lstrip m))).
  { intros m. destruct (lstrip_split m) as (sp & E & Hsp).
    destruct (Text.lstrip m) as [|c m'] eqn:Em.
    - rewrite app_nil_r in E. subst m.
      rewrite (lstrip_spaces _ _ Hsp).
      destruct (lstrip_split post) as (sp' & E' & Hsp').
      assert (Hall : Text.lstrip post = []).
      { clear -Hpost. induction Hpost as [|c p Hc _ IH]; simpl;
          [reflexivity | now rewrite Hc]. }
      now rewrite Hall.
    - assert (Hc : Text.is_space c = false).
      { pose proof (lstrip_no_lead m) as Hn. now rewrite Em in Hn. }
      rewrite E at 1. rewrite <- app_assoc, (lstrip_spaces _ _ Hsp).
      simpl. rewrite Hc. rewrite app_comm_cons, rev_app_distr.
      apply lstrip_spaces. now apply Forall_rev. }
  apply H.
Qed.

Lemma strip_idem (s : string) : Text.strip (Text.strip s) = Text.strip s.
Proof.
  unfold Text.strip. now rewrite list_ascii_of_string_of_list_ascii, strip_chars_idem.
Qed.

Lemma strip_chars_incl (l : list ascii) (c : ascii) :
  In c (Text.strip_chars l) -> In c l.
Proof.
  unfold Text.strip_chars. intros H. apply in_rev in H.
  destruct (lstrip_split (rev (Text.lstrip l))) as (sp & E & _).
  assert (H1 : In c (rev (Text.lstrip l))) by (rewrite E; apply in_or_app; auto).
  apply in_rev in H1.
  destruct (lstrip_split l) as (sp' & E' & _). rewrite E'.
  apply in_or_app. auto.
Qed.

(** ** The parsed watch-list *)

Lemma parse_entries_app (l1 l2 : list entry) :
  _parse_entries (l1 ++ l2) = _parse_entries l1 ++ _parse_entries l2.
Proof.
  induction l1 as [|e l1 IH]; simpl; [reflexivity|].
  destruct (String.eqb _ ""); [exact IH | now rewrite IH].
Qed.

Lemma parse_entries_clean_fix (l : list entry) :
  Forall clean l -> _parse_entries l = l.
Proof.
  induction 1 as [|e l (Ha & Hl & Sa & Sl) _ IH]; simpl; [reflexivity|].
  rewrite Sa, Sl, IH.
  destruct (String.eqb_spec (address e) "") as [E|_]; [contradiction|].
  destruct (String.eqb_spec (label e) "") as [E|_]; [contradiction|].
  now destruct e.
Qed.

Lemma parse_entries_all_clean (entries : list entry) :
  Forall clean (_parse_entries entries).
Proof.
  induction entries as [|e l IH]; simpl; [constructor|].
  destruct (String.eqb_spec (Text.strip (address e)) "") as [E|N];
    [exact IH|].
  constructor; [|exact IH]. unfold clean. simpl.
  destruct (String.eqb_spec (Text.strip (label e)) "") as [El|Nl];
    repeat split; auto using strip_idem.
Qed.

(** X1. Every entry of the parsed watch-list has an address and a label
    that are not empty and are stripped, and the parsed list is never
    longer than the list of the sidebar. *)
Theorem parse_entries_clean (entries : list entry) :
  Forall clean (_parse_entries entries) /\
  (length (_parse_entries entries) <= length entries)%nat.
Proof.
  split; [apply parse_entries_all_clean|].
  induction entries as [|e l IH]; simpl; [lia|].
  destruct (String.eqb _ ""); simpl; lia.
Qed.

(** X2. Parsing is idempotent: a watch-list that went through
    [_parse_entries] comes out of it unchanged. *)
Theorem parse_entries_idempotent (entries : list entry) :
  _parse_entries (_parse_entries entries) = _parse_entries entries.
Proof. apply parse_entries_clean_fix, parse_entries_all_clean. Qed.

(** X3. Parsing goes entry by entry, so it distributes over the
    concatenation of two lists, and the entry the "Add trader" button
    appends, which has no address yet, leaves the parsed watch-list as it
    was. *)
Theorem blank_trader_is_ignored (entries more : list entry) :
  _parse_entries (entries ++ more)
  = _parse_entries entries ++ _parse_entries more /\
  _parse_entries (add_trader entries) = _parse_entries entries.
Proof.
  split; [apply parse_entries_app|].
  unfold add_trader. rewrite parse_entries_app. simpl. apply app_nil_r.
Qed.

(** ** Uploaded addresses *)

Lemma split_go_no_comma (cur l : list ascii) :
  ~ In ","%char cur ->
  Forall (fun item => ~ In ","%char item) (Upload.split_go cur l).
Proof.
  revert cur. induction l as [|c l IH]; intros cur Hcur; simpl.
  - constructor; [|constructor]. now rewrite <- in_rev.
  - destruct (Ascii.eqb_spec c ",") as [->|N].
    + constructor; [now rewrite <- in_rev | apply IH; auto].
    + apply IH. intros [E|H]; [congruence | auto].
Qed.

Lemma line_tokens_clean (line : list ascii) :
  Forall (fun t => t <> "" /\ Text.strip t = t /\
                   ~ In ","%char (list_ascii_of_string t))
    (Upload.line_tokens line).
Proof.
  unfold Upload.line_tokens, Upload.split_comma.
  pose proof (split_go_no_comma [] line (fun H => H)) as Hno.
  induction Hno as [|item items Hitem _ IH]; simpl; [constructor|].
  destruct (String.eqb_spec (string_of_list_ascii (Text.strip_chars item)) "")
    as [E|N]; simpl; [exact IH|].
  constructor; [|exact IH]. split; [exact N|]. split.
  - unfold Text.strip.
    now rewrite list_ascii_of_string_of_list_ascii, strip_chars_idem.
  - rewrite list_ascii_of_string_of_list_ascii.
    intros H. now apply strip_chars_incl in H.
Qed.

Lemma append_all_spec (toks : list string) (entries : list entry) :
  Upload.append_all toks entries =
  entries ++ imap (fun i t => {| label := trader_label (length entries + i + 1);
                                 address := t |}) toks.
Proof.
  revert entries. induction toks as [|t toks IH]; intros entries; simpl.
  - now rewrite app_nil_r.
  - rewrite IH, <- app_assoc. simpl. rewrite Nat.add_0_r. do 2 f_equal.
    apply imap_ext. intros i t' _. simpl. rewrite length_app. simpl.
    do 2 f_equal. lia.
Qed.

Lemma imap_addresses (f : nat -> string -> entry) (toks : list string) :
  (forall i t, address (f i t) = t) -> map address (imap f toks) = toks.
Proof.
  revert f. induction toks as [|t toks IH]; intros f Hf; simpl; [reflexivity|].
  rewrite Hf. f_equal. apply IH. intros i t'. apply Hf.
Qed.

Lemma tokens_all_clean (raw : string) :
  Forall (fun t => t <> "" /\ Text.strip t = t /\
                   ~ In ","%char (list_ascii_of_string t))
    (Upload.tokens raw).
Proof.
  unfold Upload.tokens.
  induction (Upload.splitlines (list_ascii_of_string raw)) as [|line lines IH];
    simpl; [constructor|].
  apply Forall_app. split; [apply line_tokens_clean | exact IH].
Qed.

(** X4. The addresses read from an uploaded file are not empty, are
    stripped and hold no comma. One execution of the upload block leaves
    the entries of the session in place and appends one entry per
    address read, in the order of the file, labelled "Trader n" with [n]
    its rank in the list. *)
Theorem upload_appends_tokens (raw : string) (entries : list entry) :
  Forall (fun t => t <> "" /\ Text.strip t = t /\
                   ~ In ","%char (list_ascii_of_string t))
    (Upload.tokens raw) /\
  Upload.upload raw entries =
    entries ++ imap (fun i t =>
                       {| label := trader_label (length entries + i + 1);
                          address := t |}) (Upload.tokens raw) /\
  map address (Upload.upload raw entries)
  = map address entries ++ Upload.tokens raw.
Proof.
  split; [apply tokens_all_clean|].
  unfold Upload.upload. rewrite append_all_spec. split; [reflexivity|].
  rewrite map_app. f_equal. apply imap_addresses. reflexivity.
Qed.

Example upload_sample :
  Upload.upload ("0xa, 0xb,," ++ String "010"%char " 0xc ")
    Sample.one_trader =
  Sample.one_trader ++
  [{| label := "Trader 2"; address := "0xa" |};
   {| label := "Trader 3"; address := "0xb" |};
   {| label := "Trader 4"; address := "0xc" |}].
Proof. reflexivity. Qed.

(** ** Labels of distinct addresses *)

Lemma label_for_last (entries : list entry) (addr : string) :
  label_for (labels_of entries) addr =
  match last (List.filter (fun e => String.eqb (address e) addr) entries) with
  | Some e => label e
  | None => addr
  end.
Proof.
  unfold label_for, labels_of. rewrite labels_fold_lookup.
  destruct (last _); [reflexivity|]. now rewrite lookup_empty.
Qed.

Lemma same_address_same_entry (entries : list entry) (e e' : entry) :
  NoDup (map address entries) -> In e entries -> In e' entries ->
  address e = address e' -> e = e'.
Proof.
  induction entries as [|x l IH]; simpl; [tauto|].
  intros Hnd [<-|He] [<-|He'] Ha; auto.
  - apply NoDup_cons in Hnd as [Hx _]. exfalso. apply Hx.
    rewrite list_elem_of_In, Ha. now apply in_map.
  - apply NoDup_cons in Hnd as [Hx _]. exfalso. apply Hx.
    rewrite list_elem_of_In, <- Ha. now apply in_map.
  - apply NoDup_cons in Hnd as [_ Hl]. auto.
Qed.

(** X5. The label looked up for the address of a watch-list entry is
    always the label of an entry with that address, so the default of the
    lookup is never used; when the addresses of the watch-list are
    pairwise distinct it is the label of that very entry. *)
Theorem own_label_when_distinct (entries : list entry) (e : entry) :
  In e entries ->
  (exists e', In e' entries /\ address e' = address e /\
              label_for (labels_of entries) (address e) = label e') /\
  (NoDup (map address entries) ->
   label_for (labels_of entries) (address e) = label e).
Proof.
  intros He.
  assert (H : exists e', In e' entries /\ address e' = address e /\
                         label_for (labels_of entries) (address e) = label e').
  { rewrite label_for_last.
    destruct (last _) as [e'|] eqn:El.
    - apply last_Some in El as [l' El].
      assert (Hin : In e' (List.filter (fun x => String.eqb (address x) (address e))
                             entries))
        by (rewrite El; apply in_or_app; right; now left).
      apply filter_In in Hin as [Hin Ha]. apply String.eqb_eq in Ha. eauto.
    - apply last_None in El.
      assert (Hin : In e (List.filter (fun x => String.eqb (address x) (address e))
                            entries))
        by (apply filter_In; split; [exact He | apply String.eqb_refl]).
      rewrite El in Hin. destruct Hin. }
  split; [exact H|]. intros Hnd. destruct H as (e' & He' & Ha & ->).
  f_equal. eapply same_address_same_entry; eauto.
Qed.

Lemma own_label_when_distinct_witness :
  label_for (labels_of Sample.two_traders) "0x2" = "B".
Proof.
  assert (He : In {| label := "B"; address := "0x2" |} Sample.two_traders)
    by (right; left; reflexivity).
  destruct (own_label_when_distinct Sample.two_traders _ He) as [_ H].
  apply H. repeat constructor; vm_compute.
  - intros H'. apply list_elem_of_In in H'. simpl in H'. intuition discriminate.
  - intros H'. apply list_elem_of_In in H'. simpl in H'. exact H'.
Defined.

(** ** The empty watch-list *)

Lemma parse_entries_blank (entries : list entry) :
  Forall (fun e => Text.strip (address e) = "") entries ->
  _parse_entries entries = [].
Proof.
  induction 1 as [|e l He _ IH]; simpl; [reflexivity|]. now rewrite He.
Qed.

(** X6. When no entry of the sidebar has an address, the run writes the
    warning and stops: it sends nothing to the exchange and shows no
    table; the cache is emptied when "Refresh now" was pressed and is left
    alone otherwise. *)
Theorem empty_watchlist_stops upstream (inp : inputs) (w : world) :
  Forall (fun e => Text.strip (address e) = "") (wallet_entries inp) ->
  script upstream inp w =
    (Ok tt,
     set_page (page w ++ [StWarning
        "Add at least one trader address in the sidebar to load data."])
       (if refresh inp then set_cache ∅ w else w)) /\
  calls (snd (script upstream inp w)) = calls w.
Proof.
  intros H. unfold script. rewrite (parse_entries_blank _ H). simpl.
  unfold bind. destruct (refresh inp); simpl; auto.
Qed.

Lemma empty_watchlist_stops_witness :
  page (snd (script Sample.serve_but_0x2
               (Sample.inputs_of [{| label := "Trader 1"; address := "" |}])
               Sample.w0))
  = [StWarning "Add at least one trader address in the sidebar to load data."].
Proof.
  assert (H : Forall (fun e => Text.strip (address e) = "")
                (wallet_entries
                   (Sample.inputs_of [{| label := "Trader 1"; address := "" |}])))
    by (repeat constructor).
  destruct (empty_watchlist_stops Sample.serve_but_0x2 _ Sample.w0 H) as [-> _].
  reflexivity.
Defined.

(** ** The requests of a run *)

Lemma sends_ret {A} P (a : A) : sends_at_most P 0 (ret a).
Proof. intros w. exists []. simpl. rewrite app_nil_r. auto. Qed.

Lemma sends_lift {A} P (r : result A) : sends_at_most P 0 (lift r).
Proof. intros w. exists []. simpl. rewrite app_nil_r. auto. Qed.

Lemma sends_write P (e : element) : sends_at_most P 0 (write e).
Proof. intros w. exists []. simpl. rewrite app_nil_r. auto. Qed.

Lemma sends_cache_clear P : sends_at_most P 0 cache_clear.
Proof. intros w. exists []. simpl. rewrite app_nil_r. auto. Qed.

Lemma sends_bind {A B} P (n m : nat) (c : M A) (k : A -> M B) :
  sends_at_most P n c -> (forall a, sends_at_most P m (k a)) ->
  sends_at_most P (n + m) (bind c k).
Proof.
  intros Hc Hk w. unfold bind. destruct (Hc w) as (new1 & E1 & F1 & L1 & C1).
  destruct (c w) as [[a|e] w1]; simpl in *.
  - destruct (Hk a w1) as (new2 & E2 & F2 & L2 & C2). exists (new1 ++ new2).
    rewrite E2, E1, app_assoc, C2, C1, length_app.
    repeat split; [now apply Forall_app | lia].
  - exists new1. repeat split; auto. lia.
Qed.

Lemma sends_try {A} P (n : nat) (c : M A) :
  sends_at_most P n c -> sends_at_most P n (try_except c).
Proof.
  intros Hc w. destruct (Hc w) as (new & E & F & L & C). exists new.
  unfold try_except. destruct (c w) as [r w1]. auto.
Qed.

Lemma sends_fetch (P : request -> Prop) upstream key payload :
  P payload ->
  sends_at_most P 1 (get_or_compute key (_public_info upstream payload)).
Proof.
  intros HP w. unfold get_or_compute, _public_info.
  destruct (cache_hit key w).
  - exists []. simpl. rewrite app_nil_r. repeat split; auto.
  - exists [payload]. destruct (upstream _ _); simpl; repeat split; auto.
Qed.

Lemma fills_loop_sends upstream inp labels all addresses acc :
  incl addresses all ->
  sends_at_most (asks_for inp all) (length addresses)
    (fills_loop upstream inp labels addresses acc).
Proof.
  revert acc. induction addresses as [|a rest IH]; intros acc Hincl; simpl.
  - apply sends_ret.
  - apply (sends_bind _ 1 (length rest)).
    + apply sends_try, sends_fetch. exists a. split; [apply Hincl; now left|auto].
    + assert (Hrest : incl rest all) by (intros x Hx; apply Hincl; now right).
      intros [v|e].
      * apply (sends_bind _ 0); [apply sends_lift | intros; now apply IH].
      * apply (sends_bind _ 0); [apply sends_write | intros; now apply IH].
Qed.

Lemma positions_loop_sends upstream inp labels all addresses acc :
  incl addresses all ->
  sends_at_most (asks_for inp all) (length addresses)
    (positions_loop upstream labels addresses acc).
Proof.
  revert acc. induction addresses as [|a rest IH]; intros acc Hincl; simpl.
  - apply sends_ret.
  - apply (sends_bind _ 1 (length rest)).
    + apply sends_try, sends_fetch. exists a. split; [apply Hincl; now left|auto].
    + assert (Hrest : incl rest all) by (intros x Hx; apply Hincl; now right).
      intros [v|e].
      * apply (sends_bind _ 0); [apply sends_lift | intros; now apply IH].
      * apply (sends_bind _ 0); [apply sends_write | intros; now apply IH].
Qed.

(** X7. A run over a watch-list of [N] addresses sends at most [2 N]
    requests, whatever the exchange answers: at most one fills request and
    one state request per address, never a second attempt. Each request is
    for an address of the watch-list, the fills requests over the window
    and with the aggregation flag of the inputs; the calls made before the
    run and the clock are left as they were. *)
Theorem run_sends_at_most_two_per_address upstream (inp : inputs) (w : world) :
  let addresses := map address (_parse_entries (wallet_entries inp)) in
  exists new,
    calls (snd (script upstream inp w)) = calls w ++ new /\
    Forall (asks_for inp addresses) new /\
    (length new <= 2 * length addresses)%nat /\
    clock (snd (script upstream inp w)) = clock w.
Proof.
  intros addresses.
  assert (H : sends_at_most (asks_for inp addresses)
                (0 + (length addresses + length addresses))
                (script upstream inp)).
  { unfold script. fold addresses. apply sends_bind.
    { destruct (refresh inp); [apply sends_cache_clear | apply sends_ret]. }
    intros _. destruct addresses as [|a rest] eqn:Ea.
    { apply sends_write. }
    rewrite <- Ea. apply sends_bind.
    - unfold fills_section.
      replace (length addresses) with (length addresses + 0)%nat by lia.
      apply sends_bind.
      + apply fills_loop_sends, incl_refl.
      + intros rows. destruct rows; apply sends_write.
    - intros _. unfold positions_section.
      replace (length addresses) with (length addresses + 0)%nat by lia.
      apply sends_bind.
      + apply positions_loop_sends, incl_refl.
      + intros rows. destruct rows; apply sends_write. }
  destruct (H w) as (new & E & F & L & C). exists new.
  repeat split; auto. lia.
Qed.

(** ** When a row cannot be built *)

(** X8. On a raw fill that is an object, the only step of the row builder
    that can raise is the conversion of the timestamp: the builder raises
    exactly when the chosen timestamp normalises to a float other than NaN
    that [datetime.fromtimestamp] rejects, and with that exception. A key
    that is absent never raises: the row carries [None], or NaN for a
    numeric column. A raw fill that is not an object has no [get]. *)
Theorem fill_row_raises_only_on_time labels addr (fill : pyval) :
  (forall items, fill = PDict items ->
     (forall e, fill_row labels addr fill = Raise e <->
                Float.is_nan (fill_ts_ms items) = false /\
                Datetime.fromtimestamp
                  (Float.div (fill_ts_ms items) (Float.of_Z 1000)) = Raise e) /\
     (forall r, fill_row labels addr fill = Ok r ->
                Fill.coin r = field items "coin" /\
                Fill.side r = field items "side" /\
                Fill.dir r = field items "dir" /\
                Fill.liquidation r = field items "liquidation" /\
                Fill.closed_pnl r = _safe_float (field items "closedPnl") /\
                Fill.fee r = _safe_float (field items "fee"))) /\
  ((forall items, fill <> PDict items) ->
   fill_row labels addr fill = Raise no_get).
Proof.
  split; [|apply fill_row_not_dict].
  intros items ->. rewrite fill_row_dict. cbv zeta. fold (fill_ts_ms items).
  rewrite eqb_self. destruct (Float.is_nan (fill_ts_ms items)); simpl.
  - split; [|intros r [= <-]; simpl; auto 10].
    intros e. split; [discriminate | intros [? _]; discriminate].
  - destruct (Datetime.fromtimestamp _) as [d|e']; simpl.
    + split; [|intros r [= <-]; simpl; auto 10].
      intros e. split; [discriminate | intros [_ ?]; discriminate].
    + split; [|discriminate].
      intros e. split; [intros [= <-]; auto | intros [_ [= <-]]; reflexivity].
Qed.

Lemma fill_row_raises_only_on_time_witness :
  fill_row ∅ "0x1" Sample.fill_us
  = Raise (Exn ValueError "year 55840 is out of range").
Proof.
  destruct (fill_row_raises_only_on_time ∅ "0x1" Sample.fill_us) as [H _].
  destruct (H _ eq_refl) as [Hraise _]. apply Hraise.
  split; vm_compute; reflexivity.
Defined.

(** X9. The size test of the positions loop comes first. A position whose
    size cannot be read, because the entry or its [position] is not an
    object, raises; a position of size zero is skipped whatever else it
    holds, a malformed [leverage] included; a position of another size
    gives a row when its [leverage] is an object or absent, and raises
    otherwise. *)
Theorem position_row_errors labels addr (ap : pyval) :
  match szi_of ap with
  | Raise e => position_row labels addr ap = Raise e
  | Ok szi =>
      if Float.is_zero szi then position_row labels addr ap = Ok None
      else if well_shaped ap
           then exists r, position_row labels addr ap = Ok (Some r) /\
                          Position.size r = szi
           else position_row labels addr ap = Raise no_get
  end.
Proof.
  unfold szi_of, position_row.
  destruct (py_get_default ap "position" (PDict [])) as [pos|e] eqn:Hpos;
    cbn [rbind]; [|reflexivity].
  destruct (py_get pos "szi") as [szi_v|e] eqn:Hszi; cbn [rbind]; [|reflexivity].
  rewrite eqb_zero. destruct (Float.is_zero (_safe_float szi_v)); [reflexivity|].
  destruct pos as [| | | | | |pos]; try discriminate.
  rewrite !py_get_of_dict. cbn [rbind].
  destruct ap as [| | | | | |items]; try discriminate.
  assert (Hws : well_shaped (PDict items) =
                match assoc "leverage" pos with
                | None => true
                | Some lev => is_dict lev
                end).
  { simpl in Hpos. simpl. destruct (assoc "position" items) as [p|];
      injection Hpos as Hp; [now subst p | now subst pos]. }
  rewrite Hws. simpl py_get_default.
  destruct (assoc "leverage" pos) as [lev|]; cbn [rbind].
  - destruct lev; simpl; try reflexivity. eauto.
  - simpl. eauto.
Qed.

(** X10. A clearinghouse state that is falsy ([None], an empty object),
    or whose [assetPositions] is absent or falsy, gives no row and no
    error; a state that is truthy and not an object raises. *)
Theorem position_rows_edges labels addr (state : pyval) :
  (truthy state = false -> position_rows labels addr state = Ok []) /\
  (forall items, state = PDict items ->
     truthy (field items "assetPositions") = false ->
     position_rows labels addr state = Ok []) /\
  (truthy state = true -> is_dict state = false ->
   position_rows labels addr state = Raise no_get).
Proof.
  unfold position_rows, py_or. split; [|split].
  - intros ->. reflexivity.
  - intros items -> H. destruct items as [|kv items]; [reflexivity|].
    simpl truthy. cbv iota. rewrite py_get_of_dict. cbn [rbind].
    rewrite H. reflexivity.
  - intros Ht Hd. rewrite Ht. destruct state; try discriminate; reflexivity.
Qed.

Lemma position_rows_edges_witness :
  position_rows ∅ "0x1" PNone = Ok [] /\
  position_rows ∅ "0x1" (PDict [("marginSummary", PDict [])]) = Ok [] /\
  position_rows ∅ "0x1" (PStr "rate limited") = Raise no_get.
Proof.
  split; [|split].
  - now apply (position_rows_edges ∅ "0x1" PNone).
  - now apply (position_rows_edges ∅ "0x1" (PDict [("marginSummary", PDict [])])
                 ) with (items := [("marginSummary", PDict [])]).
  - now apply (position_rows_edges ∅ "0x1" (PStr "rate limited")).
Defined.

(** X20. Over a clearinghouse state whose asset positions have the
    documented shape, the rows of the address are the positions whose
    size is not zero, in the order of the state: their sizes are the
    normalised sizes other than zero, NaN included, and each row carries
    the address. *)
Theorem positions_of_state labels addr items aps :
  field items "assetPositions" = PList aps ->
  forallb well_shaped aps = true ->
  exists sizes rows,
    mapM szi_of aps = Ok sizes /\
    position_rows labels addr (PDict items) = Ok rows /\
    map Position.size rows =
      List.filter (fun s => negb (Float.is_zero s)) sizes /\
    Forall (fun r => Position.trader r = addr) rows.
Proof.
  intros Hf Hw.
  destruct (position_rows_sizes labels addr aps Hw) as (sizes & rows & Hs & Hr & E).
  exists sizes, (somes rows).
  assert (Hrows : position_rows labels addr (PDict items) = Ok (somes rows)).
  { unfold position_rows, py_or.
    destruct items as [|kv items]; [discriminate|].
    simpl truthy. cbv iota. rewrite py_get_of_dict. cbn [rbind]. rewrite Hf.
    destruct aps as [|ap aps]; simpl truthy; cbv iota; cbn [py_iter rbind].
    - simpl in Hr. injection Hr as <-. reflexivity.
    - rewrite Hr. reflexivity. }
  split; [exact Hs|]. split; [exact Hrows|]. split; [exact E|].
  apply position_rows_owner in Hrows.
  eapply Forall_impl; [exact Hrows|]. now intros r [? _].
Qed.

Lemma positions_of_state_witness :
  exists r1 r2,
    position_rows ∅ "0x1"
      (PDict [("assetPositions",
               PList (map Sample.position
                        [PStr "0"; PStr "n/a"; PStr "-0.0"; PStr "1.5";
                         PInt 0]))])
    = Ok [r1; r2] /\
    Position.size r1 = Float.nan /\
    Position.size r2 = S754_finite false 6755399441055744 (-52).
Proof.
  set (aps := map Sample.position
                [PStr "0"; PStr "n/a"; PStr "-0.0"; PStr "1.5"; PInt 0]).
  destruct (positions_of_state ∅ "0x1" [("assetPositions", PList aps)] aps
              eq_refl eq_refl) as (sizes & rows & Hs & Hr & E & _).
  vm_compute in Hs. injection Hs as <-.
  rewrite Hr. simpl in E.
  destruct rows as [|r1 [|r2 [|r3 rows]]]; try discriminate.
  injection E as E1 E2. exists r1, r2. auto.
Defined.

Lemma mapM_app {A B} (f : A -> result B) (l1 l2 : list A) :
  mapM f (l1 ++ l2) =
  let* b1 := mapM f l1 in let* b2 := mapM f l2 in Ok (b1 ++ b2).
Proof.
  induction l1 as [|a l1 IH]; simpl.
  - destruct (mapM f l2); reflexivity.
  - destruct (f a); simpl; [|reflexivity]. rewrite IH.
    destruct (mapM f l1); simpl; [|reflexivity].
    destruct (mapM f l2); reflexivity.
Qed.

(** X11. A fills payload that is falsy ([None], an empty list) gives no
    row and no error. On a list, the rows depend on the entries up to the
    cap alone: whatever follows them is never read, so it cannot raise;
    and an entry within the cap that cannot be built stops the loop with
    its exception. *)
Theorem fill_rows_edges labels (max_fills : Z) addr :
  (forall fetched, truthy fetched = false ->
     fill_rows labels max_fills addr fetched = Ok []) /\
  (forall raw raw', 0 <= max_fills ->
     firstn (Z.to_nat max_fills) raw = firstn (Z.to_nat max_fills) raw' ->
     fill_rows labels max_fills addr (PList raw)
     = fill_rows labels max_fills addr (PList raw')) /\
  (forall before fill after e, 0 <= max_fills ->
     (length before < Z.to_nat max_fills)%nat ->
     is_raise (mapM (fill_row labels addr) before) = false ->
     fill_row labels addr fill = Raise e ->
     fill_rows labels max_fills addr (PList (before ++ fill :: after)) = Raise e).
Proof.
  assert (Hlist : forall raw, 0 <= max_fills ->
            fill_rows labels max_fills addr (PList raw)
            = mapM (fill_row labels addr) (firstn (Z.to_nat max_fills) raw)).
  { intros raw H. unfold fill_rows, py_or, py_slice_to, slice_to.
    destruct (Z.leb_spec 0 max_fills); [|lia]. destruct raw; simpl.
    - now rewrite firstn_nil.
    - reflexivity. }
  split; [|split].
  - intros fetched H. unfold fill_rows, py_or. rewrite H. simpl.
    unfold slice_to. destruct (0 <=? max_fills); now rewrite firstn_nil.
  - intros raw raw' H E. now rewrite !Hlist, E.
  - intros before fill after e H Hlen Hok Hfill. rewrite Hlist by exact H.
    rewrite firstn_app.
    rewrite (firstn_all2 before) by lia.
    destruct (Z.to_nat max_fills - length before)%nat as [|k] eqn:Ek; [lia|].
    rewrite mapM_app. cbv zeta.
    destruct (mapM (fill_row labels addr) before); [|discriminate].
    simpl. now rewrite Hfill.
Qed.

Lemma fill_rows_edges_witness :
  fill_rows ∅ 10 "0x1" (PList (Sample.eleven_fills ++ [PStr "junk"]))
  = fill_rows ∅ 10 "0x1" (PList Sample.eleven_fills) /\
  fill_rows ∅ 10 "0x1" (PList ([Sample.fill1] ++ Sample.fill_us :: [PStr "junk"]))
  = Raise (Exn ValueError "year 55840 is out of range").
Proof.
  destruct (fill_rows_edges ∅ 10 "0x1") as (_ & Hcap & Hraise).
  split.
  - apply Hcap; [lia | reflexivity].
  - apply Hraise; [lia | simpl; lia | vm_compute; reflexivity
                   | vm_compute; reflexivity].
Defined.

(** ** The time column *)

Lemma digits_length (w : nat) (n : Z) (acc : string) :
  String.length (Datetime.digits w n acc) = (w + String.length acc)%nat.
Proof.
  revert n acc. induction w as [|w IH]; intros n acc; simpl; [reflexivity|].
  rewrite IH. simpl. lia.
Qed.

Lemma digits_append (w : nat) (n : Z) (acc s : string) :
  (Datetime.digits w n acc ++ s)%string = Datetime.digits w n (acc ++ s)%string.
Proof.
  revert n acc. induction w as [|w IH]; intros n acc; simpl; [reflexivity|].
  now rewrite IH.
Qed.

Lemma string_length_append (s t : string) :
  String.length (s ++ t)%string = (String.length s + String.length t)%nat.
Proof. induction s as [|c s IH]; simpl; [reflexivity | now rewrite IH]. Qed.

Lemma isoformat_length (d : Datetime.datetime) :
  String.length (Datetime.isoformat d) =
  if Datetime.microsecond d =? 0 then 25%nat else 32%nat.
Proof.
  unfold Datetime.isoformat.
  repeat (rewrite digits_length; cbn [String.length]).
  rewrite string_length_append.
  destruct (Datetime.microsecond d =? 0); cbn [String.length];
    [|rewrite digits_length]; reflexivity.
Qed.

(** X12. The time of a fill row is the empty string or a UTC timestamp of
    a fixed width: 25 characters, or 32 when it has microseconds. *)
Theorem fill_time_width labels addr fill r :
  fill_row labels addr fill = Ok r ->
  String.length (Fill.time r) = 0%nat \/
  String.length (Fill.time r) = 25%nat \/
  String.length (Fill.time r) = 32%nat.
Proof.
  intros H. unfold fill_row in H.
  apply rbind_ok in H as (ts & _ & H). apply rbind_ok in H as (dt & _ & H).
  unbind H. injection H as <-. simpl.
  destruct dt as [d|]; [|now left]. right. rewrite isoformat_length.
  destruct (Datetime.microsecond d =? 0); auto.
Qed.

Lemma fill_time_width_witness :
  exists r, fill_row ∅ "0x1" Sample.fill1 = Ok r /\
            String.length (Fill.time r) = 25%nat.
Proof.
  destruct (fill_row ∅ "0x1" Sample.fill1) as [r|e] eqn:E;
    [|vm_compute in E; discriminate].
  exists r. split; [reflexivity|].
  destruct (fill_time_width _ _ _ _ E) as [H|[H|H]]; [| exact H |];
    exfalso; vm_compute in E; injection E as <-; discriminate.
Defined.

Lemma digit_char_compare (a b : Z) :
  Ascii.compare (Datetime.digit_char a) (Datetime.digit_char b)
  = (a mod 10 ?= b mod 10).
Proof.
  unfold Ascii.compare, Datetime.digit_char.
  pose proof (Z.mod_pos_bound a 10 eq_refl) as Ha.
  pose proof (Z.mod_pos_bound b 10 eq_refl) as Hb.
  rewrite !N_ascii_embedding by lia.
  rewrite Z2N.inj_compare by lia. apply Z.add_compare_mono_l.
Qed.

Lemma compare_by_digit (a b : Z) :
  (a ?= b) =
  match a / 10 ?= b / 10 with
  | Eq => a mod 10 ?= b mod 10
  | c => c
  end.
Proof.
  pose proof (Z.div_mod a 10 ltac:(lia)) as Ha.
  pose proof (Z.div_mod b 10 ltac:(lia)) as Hb.
  pose proof (Z.mod_pos_bound a 10 eq_refl).
  pose proof (Z.mod_pos_bound b 10 eq_refl).
  destruct (Z.compare_spec (a / 10) (b / 10)) as [E|L|G].
  - destruct (Z.compare_spec (a mod 10) (b mod 10));
      [apply Z.compare_eq_iff | apply Z.compare_lt_iff | apply Z.compare_gt_iff];
      lia.
  - apply Z.compare_lt_iff. lia.
  - apply Z.compare_gt_iff. lia.
Qed.

(** Numbers printed in the same width compare as they do as numbers, and
    what follows them decides between equal ones. *)
Lemma digits_compare (w : nat) (a b : Z) (s t : string) :
  0 <= a < 10 ^ Z.of_nat w -> 0 <= b < 10 ^ Z.of_nat w ->
  String.compare (Datetime.digits w a s) (Datetime.digits w b t) =
  match a ?= b with
  | Eq => String.compare s t
  | c => c
  end.
Proof.
  revert a b s t. induction w as [|w IH]; intros a b s t Ha Hb.
  - simpl in *. assert (a = 0) as -> by lia. assert (b = 0) as -> by lia.
    reflexivity.
  - rewrite Nat2Z.inj_succ, Z.pow_succ_r in Ha, Hb by lia.
    simpl Datetime.digits. rewrite IH.
    + rewrite (compare_by_digit a b).
      destruct (a / 10 ?= b / 10); try reflexivity.
      simpl String.compare. rewrite digit_char_compare.
      destruct (a mod 10 ?= b mod 10); reflexivity.
    + split; [apply Z.div_pos; lia | apply Z.div_lt_upper_bound; lia].
    + split; [apply Z.div_pos; lia | apply Z.div_lt_upper_bound; lia].
Qed.

Lemma append_cons (c : ascii) (s t : string) :
  (String c s ++ t)%string = String c (s ++ t)%string.
Proof. reflexivity. Qed.

Lemma compare_same_head (c : ascii) (s t : string) :
  String.compare (String c s) (String c t) = String.compare s t.
Proof.
  simpl. unfold Ascii.compare. now rewrite N.compare_refl.
Qed.

(** X13. Timestamps order as the instants they print: for two datetimes
    whose fields fit the printed widths, comparing their ISO strings
    character by character gives the order of their fields, from the year
    down to the microsecond, a timestamp without microseconds coming
    before the ones of the same second that have some. *)
Theorem isoformat_order (d1 d2 : Datetime.datetime) :
  printable d1 -> printable d2 ->
  String.compare (Datetime.isoformat d1) (Datetime.isoformat d2)
  = dt_compare d1 d2.
Proof.
  intros (Hy1 & Hm1 & Hd1 & Hh1 & Hi1 & Hs1 & Hu1)
         (Hy2 & Hm2 & Hd2 & Hh2 & Hi2 & Hs2 & Hu2).
  unfold Datetime.isoformat, dt_compare, dt_fields. cbn [lex_compare].
  repeat (rewrite digits_compare by assumption;
          match goal with
          | |- match ?c with _ => _ end = match ?c with _ => _ end =>
              destruct c; try reflexivity
          end;
          rewrite ?compare_same_head).
  destruct (Z.eqb_spec (Datetime.microsecond d1) 0) as [E1|N1];
    destruct (Z.eqb_spec (Datetime.microsecond d2) 0) as [E2|N2].
  - rewrite E1, E2. reflexivity.
  - rewrite E1. destruct (Datetime.microsecond d2); [lia | reflexivity | lia].
  - rewrite E2. destruct (Datetime.microsecond d1); [lia | reflexivity | lia].
  - rewrite !append_cons, compare_same_head, !digits_append.
    rewrite digits_compare by assumption.
    destruct (_ ?= _); reflexivity.
Qed.

Lemma isoformat_order_witness :
  let d1 := Datetime.of_seconds 1700000000 0 in
  let d2 := Datetime.of_seconds 1700000000 500000 in
  String.compare (Datetime.isoformat d1) (Datetime.isoformat d2) = Lt.
Proof.
  cbv zeta. rewrite isoformat_order; [reflexivity| |];
    vm_compute; intuition discriminate.
Defined.

(** ** More on the normaliser and the notional *)

Lemma list_ascii_of_string_app (s t : string) :
  list_ascii_of_string (s ++ t)%string
  = list_ascii_of_string s ++ list_ascii_of_string t.
Proof. induction s as [|c s IH]; simpl; [reflexivity | now rewrite IH]. Qed.

Lemma skip_blanks_split (l : list ascii) :
  exists sp, l = sp ++ Text.skip_blanks l /\
             Forall (fun c => Text.is_blank c = true) sp.
Proof.
  induction l as [|c l (sp & E & F)]; simpl.
  - exists []. auto.
  - destruct (Text.is_blank c) eqn:Hc.
    + exists (c :: sp). split; [simpl; congruence | constructor; auto].
    + exists []. auto.
Qed.

Lemma skip_blanks_app (sp l : list ascii) :
  Forall (fun c => Text.is_blank c = true) sp ->
  Text.skip_blanks (sp ++ l) = Text.skip_blanks l.
Proof. induction 1 as [|c sp Hc _ IH]; simpl; [reflexivity|]. now rewrite Hc. Qed.

Lemma skip_blanks_head (l : list ascii) :
  match Text.skip_blanks l with
  | c :: _ => Text.is_blank c = false
  | [] => True
  end.
Proof.
  induction l as [|c l IH]; simpl; [exact I|].
  destruct (Text.is_blank c) eqn:E; [exact IH | exact E].
Qed.

(** Blanks around a text do not change what [float] reads. *)
Lemma trim_blanks_app (pre l post : list ascii) :
  Forall (fun c => Text.is_blank c = true) pre ->
  Forall (fun c => Text.is_blank c = true) post ->
  Text.trim_blanks (pre ++ l ++ post) = Text.trim_blanks l.
Proof.
  intros Hpre Hpost. unfold Text.trim_blanks. rewrite (skip_blanks_app _ _ Hpre).
  f_equal.
  destruct (skip_blanks_split l) as (sp & E & Hsp).
  pose proof (skip_blanks_head l) as Hhead.
  destruct (Text.skip_blanks l) as [|c m'] eqn:Em.
  - rewrite app_nil_r in E. subst l.
    rewrite (skip_blanks_app _ _ Hsp).
    assert (Hall : Text.skip_blanks post = []).
    { clear -Hpost. induction Hpost as [|c p Hc _ IH]; simpl;
        [reflexivity | now rewrite Hc]. }
    now rewrite Hall.
  - rewrite E at 1. rewrite <- app_assoc, (skip_blanks_app _ _ Hsp).
    simpl. rewrite Hhead. rewrite app_comm_cons, rev_app_distr.
    apply skip_blanks_app. now apply Forall_rev.
Qed.

(** X14. Blanks around a numeric string (tabs, line breaks, spaces) do
    not change what it normalises to. *)
Theorem safe_float_ignores_blanks (pre s post : string) :
  all_blanks pre -> all_blanks post ->
  _safe_float (PStr (pre ++ s ++ post)%string) = _safe_float (PStr s).
Proof.
  intros Hpre Hpost. unfold _safe_float, py_float, Text.float_of_string.
  rewrite !list_ascii_of_string_app.
  now rewrite (trim_blanks_app _ _ _ Hpre Hpost).
Qed.

Lemma safe_float_ignores_blanks_witness :
  _safe_float (PStr (String "009"%char " " ++ "100.5" ++ "  ")%string)
  = S754_finite false 7072058789855232 (-46).
Proof.
  rewrite safe_float_ignores_blanks; [reflexivity| |];
    repeat constructor.
Defined.

(** A separator character (FS..US) is no blank for [float], although
    [strip] removes it: the string does not convert. *)
Example safe_float_separator :
  _safe_float (PStr (String (ascii_of_nat 28) "7")) = Float.nan /\
  Text.strip (String (ascii_of_nat 28) "7") = "7".
Proof. split; reflexivity. Qed.

Lemma shr_1_nonneg (mrs : shr_record) :
  0 <= shr_m mrs -> 0 <= shr_m (shr_1 mrs).
Proof.
  destruct mrs as [m r s]. simpl.
  destruct m as [|[p|p|]|[p|p|]]; simpl; lia.
Qed.

Lemma iter_shr_1_nonneg (p : positive) (mrs : shr_record) :
  0 <= shr_m mrs -> 0 <= shr_m (SpecFloat.iter_pos shr_1 p mrs).
Proof.
  revert mrs. induction p as [p IH|p IH|]; intros mrs H; simpl.
  - apply IH, IH, shr_1_nonneg, H.
  - apply IH, IH, H.
  - apply shr_1_nonneg, H.
Qed.

Lemma shr_fexp_nonneg (m e : Z) (l : location) :
  0 <= m -> 0 <= shr_m (fst (shr_fexp Float.prec Float.emax m e l)).
Proof.
  intros H. unfold shr_fexp, shr.
  assert (H0 : 0 <= shr_m (shr_record_of_loc m l))
    by (destruct l as [|[]]; exact H).
  destruct (_ - e) as [|p|p]; simpl; auto using iter_shr_1_nonneg.
Qed.

Lemma round_nearest_even_nonneg (m : Z) (l : location) :
  0 <= m -> 0 <= round_nearest_even m l.
Proof.
  intros H. destruct l as [|[]]; simpl; try lia.
  destruct (Z.even m); lia.
Qed.

(** Rounding a magnitude never gives a NaN. *)
Lemma binary_round_aux_not_nan (s : bool) (m : positive) (e : Z) (l : location) :
  Float.is_nan (binary_round_aux Float.prec Float.emax s (Z.pos m) e l) = false.
Proof.
  unfold binary_round_aux.
  pose proof (shr_fexp_nonneg (Z.pos m) e l ltac:(lia)) as H1.
  destruct (shr_fexp Float.prec Float.emax (Z.pos m) e l) as [mrs' e'].
  simpl in H1.
  pose proof (shr_fexp_nonneg
                (round_nearest_even (shr_m mrs') (loc_of_shr_record mrs')) e'
                loc_Exact (round_nearest_even_nonneg _ _ H1)) as H2.
  destruct (shr_fexp _ _ _ e' loc_Exact) as [mrs'' e''].
  simpl in H2. destruct (shr_m mrs'') as [|p|p]; [reflexivity| |lia].
  destruct (e'' <=? _); reflexivity.
Qed.

(** X15. The notional of a fill row is NaN exactly when the price or the
    size is NaN, or one of them is infinite and the other is zero; the
    product of two finite numbers is never NaN. *)
Theorem notional_nan_iff (px sz : float) :
  Float.is_nan (notional_of px sz) =
  Float.is_nan px || Float.is_nan sz
  || (is_inf px && Float.is_zero sz) || (Float.is_zero px && is_inf sz).
Proof.
  rewrite notional_of_spec.
  destruct px as [s1|s1| |s1 m1 e1], sz as [s2|s2| |s2 m2 e2]; try reflexivity.
  simpl. unfold Float.mul, SFmul. apply binary_round_aux_not_nan.
Qed.

(** ** A second run within the TTL *)

Section FetchFamily.

Variable upstream : nat -> request -> result pyval.
Variable key : string -> cache_key.
Variable payload : string -> request.

Let fetch (a : string) : M pyval :=
  get_or_compute (key a) (_public_info upstream (payload a)).

Lemma fetch_stores (a : string) (w : world) :
  stamped_now w ->
  stamped_now (snd (fetch a w)) /\
  clock (snd (fetch a w)) = clock w /\
  (forall k e, cache w !! k = Some e -> cache (snd (fetch a w)) !! k = Some e) /\
  (forall v, fst (fetch a w) = Ok v ->
             cache (snd (fetch a w)) !! key a = Some (clock w, v)).
Proof.
  intros Hw. unfold fetch, get_or_compute, cache_hit, young, _public_info.
  destruct (cache w !! key a) as [[t v0]|] eqn:Hk.
  - pose proof (Hw _ _ Hk) as Ht. simpl in Ht. subst t. simpl.
    rewrite Z.sub_diag. simpl. repeat split; auto.
    intros v [= <-]. exact Hk.
  - destruct (upstream (length (calls w)) (payload a)) as [v|e]; simpl.
    + repeat split.
      * intros k e. simpl. destruct (decide (k = key a)) as [->|Hne].
        -- rewrite lookup_insert_eq. now intros [= <-].
        -- rewrite lookup_insert_ne by congruence. apply Hw.
      * intros k e Hke. rewrite lookup_insert_ne; [exact Hke | congruence].
      * intros v' [= <-]. apply lookup_insert_eq.
    + repeat split; auto. discriminate.
Qed.

Lemma fetch_all_stores (addresses : list string) (w : world) :
  stamped_now w ->
  stamped_now (snd (fetch_all fetch addresses w)) /\
  clock (snd (fetch_all fetch addresses w)) = clock w /\
  (forall k e, cache w !! k = Some e ->
               cache (snd (fetch_all fetch addresses w)) !! k = Some e) /\
  (forall a v, In (a, Ok v) (fst (fetch_all fetch addresses w)) ->
               cache (snd (fetch_all fetch addresses w)) !! key a
               = Some (clock w, v)).
Proof.
  revert w. induction addresses as [|a rest IH]; intros w Hw; simpl.
  - repeat split; auto. intros a v [].
  - destruct (fetch_stores a w Hw) as (Hs1 & Hc1 & Hp1 & Hv1).
    destruct (fetch a w) as [r w1]. simpl in *.
    destruct (IH w1 Hs1) as (Hs2 & Hc2 & Hp2 & Hv2).
    destruct (fetch_all fetch rest w1) as [outs w2]. simpl in *.
    repeat split; auto; [congruence|].
    intros a' v [[= <- ->]|Hin].
    + apply Hp2, Hv1. reflexivity.
    + rewrite <- Hc1. now apply Hv2.
Qed.

End FetchFamily.

Lemma no_failure_all_ok (outs : list (string * result pyval)) :
  failed outs = [] ->
  forall a r, In (a, r) outs -> exists v, r = Ok v.
Proof.
  induction outs as [|[a' [v'|e']] outs IH]; simpl; intros H a r Hin.
  - destruct Hin.
  - destruct Hin as [[= <- <-]|Hin]; eauto.
  - discriminate.
Qed.

Section Rerun.

Variable upstream : nat -> request -> result pyval.
Variable P : request -> Prop.
Variable t : Z.
Variable addresses : list string.

Lemma only_ret {A} (a : A) : sends_only P t addresses (ret a).
Proof. intros w Hw. split; [exact Hw|]. exists []. simpl. now rewrite app_nil_r. Qed.

Lemma only_lift {A} (r : result A) : sends_only P t addresses (lift r).
Proof. intros w Hw. split; [exact Hw|]. exists []. simpl. now rewrite app_nil_r. Qed.

Lemma only_write (e : element) : sends_only P t addresses (write e).
Proof. intros w Hw. split; [exact Hw|]. exists []. simpl. now rewrite app_nil_r. Qed.

Lemma only_bind {A B} (c : M A) (k : A -> M B) :
  sends_only P t addresses c -> (forall a, sends_only P t addresses (k a)) ->
  sends_only P t addresses (bind c k).
Proof.
  intros Hc Hk w Hw. unfold bind. destruct (Hc w Hw) as (H1 & new1 & E1 & F1).
  destruct (c w) as [[a|e] w1]; simpl in *.
  - destruct (Hk a w1 H1) as (H2 & new2 & E2 & F2). split; [exact H2|].
    exists (new1 ++ new2). rewrite E2, E1, app_assoc.
    split; [reflexivity | now apply Forall_app].
  - split; [exact H1|]. exists new1. auto.
Qed.

Lemma only_try {A} (c : M A) :
  sends_only P t addresses c -> sends_only P t addresses (try_except c).
Proof.
  intros Hc w Hw. unfold try_except. specialize (Hc w Hw).
  destruct (c w) as [r w1]. exact Hc.
Qed.

(** A fills fetch stores under a fills key, so the states stay where
    they are. *)
Lemma only_fills (a : string) (s e : Z) (g : bool) :
  P (UserFillsByTime a s e g) ->
  sends_only P t addresses (fetch_recent_fills upstream a s e g).
Proof.
  intros HP w Hw. unfold fetch_recent_fills, get_or_compute, _public_info.
  destruct (cache_hit _ w) as [v|].
  - split; [exact Hw|]. exists []. simpl. now rewrite app_nil_r.
  - destruct (upstream (length (calls w)) _) as [v|e']; simpl.
    + split.
      * destruct Hw as [Hy Hc]. split; [exact Hy|]. intros a' Hin. simpl.
        destruct (Hc a' Hin) as [v' Hv']. exists v'.
        rewrite lookup_insert_ne by discriminate. exact Hv'.
      * exists [UserFillsByTime a s e g]. auto.
    + split; [exact Hw|]. exists [UserFillsByTime a s e g]. auto.
Qed.

(** A state that is in the cache is not asked for. *)
Lemma only_positions (a : string) :
  In a addresses ->
  sends_only P t addresses (fetch_positions_single upstream a).
Proof.
  intros Hin w Hw. unfold fetch_positions_single, get_or_compute, cache_hit.
  destruct Hw as [Hy Hc]. destruct (Hc a Hin) as [v Hv]. rewrite Hv.
  unfold young. simpl. destruct (Z.ltb_spec (clock w - t) ttl); [|lia].
  split; [split; assumption|]. exists []. simpl. now rewrite app_nil_r.
Qed.

Lemma only_fills_loop inp labels (rest : list string) acc :
  (forall a, In a rest ->
     P (UserFillsByTime a (start_ms inp) (end_ms inp) (aggregate_by_time inp))) ->
  sends_only P t addresses (fills_loop upstream inp labels rest acc).
Proof.
  revert acc. induction rest as [|a rest IH]; intros acc HP; simpl.
  - apply only_ret.
  - apply only_bind.
    + apply only_try, only_fills, HP. now left.
    + intros [v|e].
      * apply only_bind; [apply only_lift|]. intros rows. apply IH.
        intros a' Hin. apply HP. now right.
      * apply only_bind; [apply only_write|]. intros _. apply IH.
        intros a' Hin. apply HP. now right.
Qed.

Lemma only_positions_loop labels (rest : list string) acc :
  incl rest addresses ->
  sends_only P t addresses (positions_loop upstream labels rest acc).
Proof.
  revert acc. induction rest as [|a rest IH]; intros acc Hin; simpl.
  - apply only_ret.
  - apply only_bind.
    + apply only_try, only_positions, Hin. now left.
    + intros [v|e].
      * apply only_bind; [apply only_lift|]. intros rows. apply IH.
        intros a' H. apply Hin. now right.
      * apply only_bind; [apply only_write|]. intros _. apply IH.
        intros a' H. apply Hin. now right.
Qed.

End Rerun.

(** A run without a refresh over a watch-list whose states are all in
    the cache sends fills requests only. *)
Lemma script_sends_fills_only upstream inp (t : Z) :
  let addresses := map address (_parse_entries (wallet_entries inp)) in
  refresh inp = false ->
  sends_only (fills_request inp addresses) t addresses (script upstream inp).
Proof.
  intros addresses Hr. unfold script. rewrite Hr. fold addresses.
  apply only_bind; [apply only_ret|]. intros _.
  assert (Hloops : sends_only (fills_request inp addresses) t addresses
            (let! _ := fills_section upstream inp
                         (labels_of (_parse_entries (wallet_entries inp)))
                         addresses in
             positions_section upstream
               (labels_of (_parse_entries (wallet_entries inp))) addresses)).
  { apply only_bind.
    - unfold fills_section. apply only_bind.
      + apply only_fills_loop. intros a Hin. exists a. auto.
      + intros [|r rows]; apply only_write.
    - intros _. unfold positions_section. apply only_bind.
      + apply only_positions_loop. intros a Hin. exact Hin.
      + intros [|r rows]; apply only_write. }
  destruct addresses; [apply only_write | exact Hloops].
Qed.

(** X17. Take a run that starts without older entries in the cache and
    completes with the clearinghouse state of every address fetched. A
    later run over the same watch-list, without a refresh and less than
    30 seconds after, sends no state request, whatever window it
    computes and whatever the exchange answers: every request it sends is
    a fills request for an address of the watch-list over its own
    window. *)
Theorem rerun_reuses_positions upstream inp inp2 (w : world) frowss prowss
  (dt : Z) :
  let entries := _parse_entries (wallet_entries inp) in
  let addresses := map address entries in
  let labels := labels_of entries in
  let start := if refresh inp then set_cache ∅ w else w in
  let fills :=
    fetch_all (fun a => fetch_recent_fills upstream a (start_ms inp)
                          (end_ms inp) (aggregate_by_time inp))
      addresses start in
  let positions :=
    fetch_all (fetch_positions_single upstream) addresses (snd fills) in
  let w1 := snd (script upstream inp w) in
  stamped_now start -> addresses <> [] ->
  failed (fst positions) = [] ->
  mapM (fun o => fill_rows labels (max_fills inp) (fst o) (snd o))
    (succeeded (fst fills)) = Ok frowss ->
  mapM (fun o => position_rows labels (fst o) (snd o))
    (succeeded (fst positions)) = Ok prowss ->
  wallet_entries inp2 = wallet_entries inp -> refresh inp2 = false ->
  0 <= dt < ttl ->
  exists new,
    calls (snd (script upstream inp2 (elapse dt w1))) = calls w1 ++ new /\
    Forall (fills_request inp2 addresses) new.
Proof.
  intros entries addresses labels start fills positions w1
         Hw Hne Hfp Hf Hp Hwl Hr2 Hdt.
  set (keyF := fun a : string =>
                 (inl (a, start_ms inp, end_ms inp, aggregate_by_time inp)
                  : cache_key)).
  set (payF := fun a => UserFillsByTime a (start_ms inp) (end_ms inp)
                          (aggregate_by_time inp)).
  set (keyP := fun a : string => (inr a : cache_key)).
  assert (Hw1 : w1 = set_page (page w
                                 ++ map fills_failure (failed (fst fills))
                                 ++ [fills_outcome inp (concat frowss)]
                                 ++ map positions_failure (failed (fst positions))
                                 ++ [positions_outcome (concat prowss)])
                       (snd positions)).
  { unfold w1. now rewrite (script_run upstream inp w frowss prowss Hne Hf Hp). }
  destruct (fetch_all_stores upstream keyF payF addresses start Hw)
    as (HsF & HcF & _ & _).
  change (fetch_all _ addresses start) with fills in HsF, HcF.
  destruct (fetch_all_stores upstream keyP ClearinghouseState addresses
              (snd fills) HsF) as (_ & HcP & _ & HvP).
  change (fetch_all _ addresses (snd fills)) with positions in HcP, HvP.
  assert (Hcached : positions_cached (clock (snd fills)) addresses
                      (elapse dt w1)).
  { rewrite Hw1. split; [simpl; lia|]. intros a Hin. simpl.
    assert (Hout : exists r, In (a, r) (fst positions)).
    { pose proof (fetch_all_addresses (fetch_positions_single upstream)
                    addresses (snd fills)) as Hmap.
      fold positions in Hmap. rewrite <- Hmap in Hin.
      apply in_map_iff in Hin as ([a' r] & <- & Hin). eauto. }
    destruct Hout as [r Hout].
    destruct (no_failure_all_ok _ Hfp a r Hout) as [v ->].
    exists v. apply HvP, Hout. }
  pose proof (script_sends_fills_only upstream inp2 (clock (snd fills)) Hr2)
    as Hrun.
  cbv zeta in Hrun. rewrite Hwl in Hrun. fold entries addresses in Hrun.
  destruct (Hrun _ Hcached) as (_ & new & Hcalls & Hnew).
  exists new. split; [exact Hcalls | exact Hnew].
Qed.

Lemma rerun_reuses_positions_witness :
  let up := Sample.serve (PList [Sample.fill1]) in
  let inp := Sample.inputs_of Sample.one_trader in
  let inp2 := {| wallet_entries := Sample.one_trader; max_fills := 200;
                 aggregate_by_time := false; window_hours := 24;
                 refresh := false; start_ms := 29000; end_ms := 86429000 |} in
  let w1 := snd (script up inp Sample.w0) in
  calls w1 = [UserFillsByTime "0x1" 0 86400000 false;
              ClearinghouseState "0x1"] /\
  calls (snd (script up inp2 (elapse 29 w1))) =
    calls w1 ++ [UserFillsByTime "0x1" 29000 86429000 false].
Proof.
  intros up inp inp2 w1. split; [reflexivity|].
  set (labels := labels_of (_parse_entries (wallet_entries inp))).
  set (addresses := map address (_parse_entries (wallet_entries inp))).
  set (fills := fetch_all (fun a => fetch_recent_fills up a (start_ms inp)
                                      (end_ms inp) (aggregate_by_time inp))
                  addresses Sample.w0).
  set (positions := fetch_all (fetch_positions_single up) addresses (snd fills)).
  destruct (mapM (fun o => fill_rows labels (max_fills inp) (fst o) (snd o))
              (succeeded (fst fills))) as [frowss|e] eqn:Ef;
    [|vm_compute in Ef; discriminate].
  destruct (mapM (fun o => position_rows labels (fst o) (snd o))
              (succeeded (fst positions))) as [prowss|e] eqn:Ep;
    [|vm_compute in Ep; discriminate].
  assert (Hw : stamped_now Sample.w0).
  { intros k e H. simpl in H. rewrite lookup_empty in H. discriminate. }
  assert (Hne : addresses <> []) by (vm_compute; discriminate).
  assert (Hdt : 0 <= 29 < ttl) by (unfold ttl; lia).
  destruct (rerun_reuses_positions up inp inp2 Sample.w0 frowss prowss 29
              Hw Hne eq_refl Ef Ep eq_refl eq_refl Hdt) as (new & Hcalls & _).
  fold w1 in Hcalls. rewrite Hcalls. f_equal.
  apply (app_inv_head (calls w1)). rewrite <- Hcalls. reflexivity.
Defined.

(** ** A run during an outage *)

Section Outage.

Variable upstream : nat -> request -> result pyval.
Variable key : string -> cache_key.
Variable payload : string -> request.
Hypothesis down : forall n r, is_raise (upstream n r) = true.

Let fetch (a : string) : M pyval :=
  get_or_compute (key a) (_public_info upstream (payload a)).

Lemma fetch_down (a : string) (w : world) :
  cache w = ∅ ->
  exists e, fetch a w = (Raise e, set_calls (calls w ++ [payload a]) w).
Proof.
  intros Hw. unfold fetch, get_or_compute, cache_hit, _public_info.
  rewrite Hw, lookup_empty.
  pose proof (down (length (calls w)) (payload a)) as Hd.
  destruct (upstream (length (calls w)) (payload a)) as [v|e];
    [discriminate | eauto].
Qed.

Lemma fetch_all_down (addresses : list string) (w : world) :
  cache w = ∅ ->
  succeeded (fst (fetch_all fetch addresses w)) = [] /\
  map fst (failed (fst (fetch_all fetch addresses w))) = addresses /\
  cache (snd (fetch_all fetch addresses w)) = ∅ /\
  length (calls (snd (fetch_all fetch addresses w)))
  = (length (calls w) + length addresses)%nat.
Proof.
  revert w. induction addresses as [|a rest IH]; intros w Hw; simpl.
  - repeat split; auto.
  - destruct (fetch_down a w Hw) as [e ->].
    specialize (IH (set_calls (calls w ++ [payload a]) w) Hw).
    destruct (fetch_all fetch rest _) as [outs w2].
    destruct IH as (Hs & Hf & Hc & Hl). cbn [fst snd] in *.
    split; [exact Hs|]. split; [simpl; f_equal; exact Hf|].
    split; [exact Hc|].
    rewrite Hl. cbn [calls set_calls]. rewrite length_app. simpl. lia.
Qed.

End Outage.

(** X18. When the exchange fails every request and the cache holds
    nothing, because it was just refreshed or never filled, the run still
    completes: it reports one failure per address under each heading,
    shows the two notices instead of tables, and has sent its two requests
    per address. *)
Theorem outage_reports_every_address upstream inp (w : world) :
  let addresses := map address (_parse_entries (wallet_entries inp)) in
  (forall n r, is_raise (upstream n r) = true) ->
  refresh inp = true \/ cache w = ∅ ->
  addresses <> [] ->
  exists ferrs perrs,
    map fst ferrs = addresses /\ map fst perrs = addresses /\
    fst (script upstream inp w) = Ok tt /\
    page (snd (script upstream inp w)) =
      page w ++ map fills_failure ferrs ++ [fills_outcome inp []]
             ++ map positions_failure perrs ++ [positions_outcome []] /\
    length (calls (snd (script upstream inp w)))
    = (length (calls w) + 2 * length addresses)%nat.
Proof.
  intros addresses Hdown Hcache Hne.
  set (start := if refresh inp then set_cache ∅ w else w).
  assert (Hstart : cache start = ∅).
  { unfold start. destruct (refresh inp); [reflexivity|].
    destruct Hcache; [discriminate | assumption]. }
  assert (Hcalls : calls start = calls w)
    by (unfold start; destruct (refresh inp); reflexivity).
  set (fetchF := fun a => fetch_recent_fills upstream a (start_ms inp)
                            (end_ms inp) (aggregate_by_time inp)).
  destruct (fetch_all_down upstream
              (fun a => inl (a, start_ms inp, end_ms inp, aggregate_by_time inp))
              (fun a => UserFillsByTime a (start_ms inp) (end_ms inp)
                          (aggregate_by_time inp))
              Hdown addresses start Hstart) as (HsF & HfF & HcF & HlF).
  change (fetch_all _ addresses start) with (fetch_all fetchF addresses start)
    in HsF, HfF, HcF, HlF.
  destruct (fetch_all_down upstream (fun a => inr a) ClearinghouseState
              Hdown addresses _ HcF) as (HsP & HfP & _ & HlP).
  change (fetch_all _ addresses (snd (fetch_all fetchF addresses start)))
    with (fetch_all (fetch_positions_single upstream) addresses
            (snd (fetch_all fetchF addresses start))) in HsP, HfP, HlP.
  pose proof (script_run upstream inp w [] []) as H. cbv zeta in H.
  fold addresses in H. fold start in H. fold fetchF in H.
  rewrite HsF, HsP in H. specialize (H Hne eq_refl eq_refl).
  exists (failed (fst (fetch_all fetchF addresses start))),
         (failed (fst (fetch_all (fetch_positions_single upstream) addresses
                         (snd (fetch_all fetchF addresses start))))).
  rewrite H. simpl fst. simpl snd. rewrite page_set_page.
  repeat split; auto.
  change (calls (set_page ?p ?x)) with (calls x).
  rewrite HlP, HlF, Hcalls. lia.
Qed.

Lemma outage_reports_every_address_witness :
  let down (n : nat) (r : request) : result pyval := Raise Sample.timeout in
  let run := script down (Sample.inputs_of Sample.one_trader) Sample.w0 in
  fst run = Ok tt /\ length (calls (snd run)) = 2%nat.
Proof.
  cbv zeta.
  destruct (outage_reports_every_address (fun _ _ => Raise Sample.timeout)
              (Sample.inputs_of Sample.one_trader) Sample.w0
              (fun _ _ => eq_refl) (or_intror eq_refl)
              ltac:(vm_compute; discriminate))
    as (ferrs & perrs & _ & _ & Hok & _ & Hcalls).
  split; [exact Hok|]. rewrite Hcalls. reflexivity.
Defined.
